(** * 66 Pigs: the rules engine of [utils/gameLogic.ts] and the placement
    loops of the two [GameScreen] versions, embedded shallowly.

    Conventions of the embedding:
    - a JS [number] holding a card number, a pig value or a score is a [Z];
      array lengths, loop counters and array positions are [nat];
      a row index handed around as a [number] (it can be [-1]) is a [Z];
    - an array is a [list]; [a[i]] is stdpp's lookup [a !! i], which is
      [None] exactly where JS yields [undefined];
    - a function that can throw a [TypeError] (a property read on
      [undefined]) returns an [option]: [None] is the throw;
    - [Infinity] is the extra constructor of [num];
    - a JS object used as a dictionary is a [gmap string Z]. *)

From stdpp Require Import base numbers option list strings gmap sorting.

Local Open Scope Z_scope.

(** ** types/index.ts *)

Record Card := mkCard { number : Z; pigs : Z }.

Record TableRow := mkRow { cards : list Card }.

Record Player := mkPlayer {
  id : string;
  nickname : string;
  score : Z;
  hand : list Card;
  isHost : bool;
  isReady : bool;
  selectedCard : option Card
}.

Record RevealedCard := mkRevealed {
  playerId : string;
  playerName : string;
  card : Card
}.

#[global] Instance Card_eq_dec : EqDecision Card.
Proof. solve_decision. Defined.

#[global] Instance TableRow_eq_dec : EqDecision TableRow.
Proof. solve_decision. Defined.

(** A JS number that may be [Infinity] (the initial value of the running
    minima in [findRowForCard] and in the row auto-selection loops). *)
Inductive num := Finite (z : Z) | Infinity.

(** [x < m] for a finite [x]. *)
Definition lt_num (x : Z) (m : num) : bool :=
  match m with
  | Finite z => bool_decide (x < z)
  | Infinity => true
  end.

(** [a[i]] for an index held in a JS number: a negative index reads
    [undefined]. *)
Definition at_index {A} (a : list A) (i : Z) : option A :=
  if bool_decide (i < 0) then None else a !! Z.to_nat i.

(** [Array.prototype.sort] with the comparator [(a, b) => key a - key b]:
    the sort is stable, so elements with equal keys keep their input order.
    Insertion from the right with [<=] is such a sort. *)
Fixpoint insertBy {A} (key : A -> Z) (x : A) (l : list A) : list A :=
  match l with
  | [] => [x]
  | y :: l' => if bool_decide (key x <= key y) then x :: y :: l'
               else y :: insertBy key x l'
  end.

Fixpoint sortBy {A} (key : A -> Z) (l : list A) : list A :=
  match l with
  | [] => []
  | x :: l' => insertBy key x (sortBy key l')
  end.

(** ** utils/gameLogic.ts *)

Definition SPECIAL_DOUBLES : list Z := [11; 22; 33; 44; 55; 66; 77; 88; 99].

(** [xs.includes(x)] *)
Definition includes (xs : list Z) (x : Z) : bool := bool_decide (x ∈ xs).

(** JS [%] truncates towards zero: [Z.rem]. *)
Definition calculatePigValue (cardNumber : Z) : Z :=
  if includes SPECIAL_DOUBLES cardNumber then -11
  else if bool_decide (Z.rem cardNumber 10 = 5) then 2
  else if bool_decide (Z.rem cardNumber 10 = 0) then 3
  else 1.

(** [for (let i = 1; i <= 104; i++) deck.push({number: i, pigs: ...})] *)
Definition createDeck : list Card :=
  (fun i => mkCard i (calculatePigValue i)) <$> seqZ 1 104.

(** [[shuffled[i], shuffled[j]] = [shuffled[j], shuffled[i]]]: both reads
    happen before both writes. The loop only swaps positions inside the
    array ([j <= i < length]); the last branch is never taken there. *)
Definition swap (shuffled : list Card) (i j : nat) : list Card :=
  match shuffled !! i, shuffled !! j with
  | Some x, Some y => <[j := x]> (<[i := y]> shuffled)
  | _, _ => shuffled
  end.

Section Shuffle.
(** [randomIndex i] stands for the value of
    [Math.floor(Math.random() * (i + 1))] drawn in the iteration with
    loop index [i]; every iteration of one shuffle has its own [i]. *)
Variable randomIndex : nat -> nat.

(** The body of [for (let i = shuffled.length - 1; i > 0; i--)], entered
    with the current [i]. *)
Fixpoint shuffleLoop (i : nat) (shuffled : list Card) : list Card :=
  match i with
  | O => shuffled
  | S i' => shuffleLoop i' (swap shuffled i (randomIndex i))
  end.

Definition shuffleDeck (deck : list Card) : list Card :=
  shuffleLoop (length deck - 1)%nat deck.
End Shuffle.

(** [hand.sort((a, b) => a.number - b.number)] on an array that may hold
    [undefined]: [Array.prototype.sort] never hands [undefined] to the
    comparator, it sorts the defined elements and puts every [undefined]
    after them. *)
Definition sortHand (hand : list (option Card)) : list (option Card) :=
  let defined := omap (fun x => x) hand in
  (Some <$> sortBy number defined)
    ++ replicate (length hand - length defined)%nat None.

(** The inner loop [for (let c = 0; c < 10; c++)], with [todo] iterations
    left: [hand.push(deck[deckIndex]); deckIndex++]. *)
Fixpoint dealHandLoop (deck : list Card) (todo : nat)
    (hand : list (option Card)) (deckIndex : nat)
    : list (option Card) * nat :=
  match todo with
  | O => (hand, deckIndex)
  | S todo' =>
      dealHandLoop deck todo' (hand ++ [deck !! deckIndex]) (S deckIndex)
  end.

(** The outer loop [for (let p = 0; p < numPlayers; p++)], with [todo]
    iterations left. *)
Fixpoint dealLoop (deck : list Card) (todo : nat)
    (hands : list (list (option Card))) (deckIndex : nat)
    : list (list (option Card)) * nat :=
  match todo with
  | O => (hands, deckIndex)
  | S todo' =>
      let '(hand, deckIndex') := dealHandLoop deck 10 [] deckIndex in
      dealLoop deck todo' (hands ++ [sortHand hand]) deckIndex'
  end.

Record Deal := mkDeal {
  hands : list (list (option Card));
  remainingDeck : list Card
}.

(** A hand slot is [None] where the source pushed [deck[deckIndex]] read
    past the end of the deck, that is [undefined]. *)
Definition dealCards (deck : list Card) (numPlayers : nat) : Deal :=
  let '(hands, deckIndex) := dealLoop deck numPlayers [] 0%nat in
  mkDeal hands (drop deckIndex deck).

(** The loop of [findRowForCard] over the rows from index [i] on.
    [rows[i].cards[rows[i].cards.length - 1]] is [undefined] for a row with
    no card, and reading [.number] of it throws. *)
Fixpoint findRowLoop (c : Card) (rows : list TableRow) (i : Z)
    (bestRowIndex : Z) (smallestDifference : num) : option Z :=
  match rows with
  | [] => Some bestRowIndex
  | row :: rows' =>
      match last (cards row) with
      | None => None
      | Some lastCard =>
          if bool_decide (number c > number lastCard) then
            let difference := number c - number lastCard in
            if lt_num difference smallestDifference
            then findRowLoop c rows' (i + 1) i (Finite difference)
            else findRowLoop c rows' (i + 1) bestRowIndex smallestDifference
          else findRowLoop c rows' (i + 1) bestRowIndex smallestDifference
      end
  end.

Definition findRowForCard (c : Card) (rows : list TableRow) : option Z :=
  findRowLoop c rows 0 (-1) Infinity.

(** [row.cards.reduce((sum, card) => sum + card.pigs, 0)] *)
Definition calculateRowPigs (row : TableRow) : Z :=
  foldl (fun sum c => sum + pigs c) 0 (cards row).

Record Placement := mkPlacement {
  newRows : list TableRow;
  pigsTaken : Z;
  cardsTaken : list Card
}.

(** [rows.map(row => ({cards: [...row.cards]}))] copies the table; lists are
    values, so the copy is [rows]. [newRows[rowIndex]] outside the table is
    [undefined] and [targetRow.cards] then throws. *)
Definition placeCardInRow (c : Card) (rowIndex : Z) (rows : list TableRow)
    : option Placement :=
  match at_index rows rowIndex with
  | None => None
  | Some targetRow =>
      if bool_decide (5 <= length (cards targetRow))%nat then
        Some (mkPlacement (<[Z.to_nat rowIndex := mkRow [c]]> rows)
                          (calculateRowPigs targetRow)
                          (cards targetRow))
      else
        Some (mkPlacement
                (<[Z.to_nat rowIndex := mkRow (cards targetRow ++ [c])]> rows)
                0 [])
  end.

(** [calculateRowPigs(newRows[rowIndex])] throws outside the table. *)
Definition takeRow (c : Card) (rowIndex : Z) (rows : list TableRow)
    : option Placement :=
  match at_index rows rowIndex with
  | None => None
  | Some row =>
      Some (mkPlacement (<[Z.to_nat rowIndex := mkRow [c]]> rows)
                        (calculateRowPigs row)
                        (cards row))
  end.

(** [[...revealed].sort((a, b) => a.card.number - b.card.number)] *)
Definition sortRevealedCards {T} (getCard : T -> Card) (revealed : list T)
    : list T :=
  sortBy (fun r => number (getCard r)) revealed.

(** [players.some(player => player.score >= 66)] *)
Definition isGameOver (players : list Player) : bool :=
  existsb (fun player => bool_decide (score player >= 66)) players.

(** [players.reduce((winner, player) => ...)] without an initial value: the
    first element starts the fold, and an empty array throws. *)
Definition getWinner (players : list Player) : option Player :=
  match players with
  | [] => None
  | first :: rest =>
      Some (foldl (fun winner player =>
                     if bool_decide (score player < score winner)
                     then player else winner) first rest)
  end.

(** [players.every(player => player.hand.length === 0)] *)
Definition isRoundComplete (players : list Player) : bool :=
  forallb (fun player => bool_decide (length (hand player) = 0%nat)) players.

Record NewRound := mkNewRound {
  roundHands : list (list (option Card));
  cardsOnTable : list Z
}.

(** The nested [for ... of] loops push every number on the table, row by
    row; then the fresh deck is filtered, shuffled and dealt. *)
Definition startNewRound (randomIndex : nat -> nat) (numPlayers : nat)
    (existingRows : list TableRow) : NewRound :=
  let cardsOnTable := existingRows ≫= (fun row => number <$> cards row) in
  let deck :=
    filter (fun c => negb (includes cardsOnTable (number c)) = true)
           createDeck in
  let deck := shuffleDeck randomIndex deck in
  mkNewRound (hands (dealCards deck numPlayers)) cardsOnTable.

(** The loop of [findSmallestRow] over the rows from index [i] on. *)
Fixpoint findSmallestLoop (rows : list TableRow) (i : Z) (smallestPigs : Z)
    (smallestIndex : Z) : Z :=
  match rows with
  | [] => smallestIndex
  | row :: rows' =>
      let pigs := calculateRowPigs row in
      if bool_decide (pigs < smallestPigs)
      then findSmallestLoop rows' (i + 1) pigs i
      else findSmallestLoop rows' (i + 1) smallestPigs smallestIndex
  end.

(** [calculateRowPigs(rows[0])] throws on an empty table. *)
Definition findSmallestRow (rows : list TableRow) : option Z :=
  match rows with
  | [] => None
  | row0 :: rows' => Some (findSmallestLoop rows' 1 (calculateRowPigs row0) 0)
  end.

Record TableInit := mkTableInit {
  initRows : list TableRow;
  initRemainingDeck : list Card
}.

(** [a.cards[0].number] for a row that has a first card; the rows that
    [initializeTableRows] sorts all have one. *)
Definition firstNumber (row : TableRow) : Z :=
  default 0 (number <$> head (cards row)).

(** [for (i = 0; i < 4; i++) rows.push({cards: [deck[i]]})], then
    [rows.sort((a, b) => a.cards[0].number - b.cards[0].number)] and
    [deck.slice(4)]. When the deck has fewer than 4 cards some row holds
    [undefined]; sorting 4 rows hands every row to the comparator, and
    [a.cards[0].number] then throws. *)
Definition initializeTableRows (deck : list Card) : option TableInit :=
  match mapM (fun i => deck !! i) (seq 0 4) with
  | None => None
  | Some founding =>
      Some (mkTableInit
              (sortBy firstNumber ((fun c => mkRow [c]) <$> founding))
              (drop 4 deck))
  end.

Inductive GamePhase :=
  waiting | selecting | revealing | placing | row_selection | finished.

Record GameState := mkGameState {
  phase : GamePhase;
  round : Z;
  tableRows : list TableRow;
  currentPlayerIndex : Z;
  revealedCards : list RevealedCard;
  pendingPlacements : list (string * Card);
  lastAction : option string
}.

Record NewGame := mkNewGame {
  gameState : GameState;
  gameHands : list (list (option Card))
}.

(** [createDeck], [shuffleDeck], [initializeTableRows], then [dealCards] on
    the cards the table left. *)
Definition initializeGame (randomIndex : nat -> nat) (numPlayers : nat)
    : option NewGame :=
  let deck := createDeck in
  let deck := shuffleDeck randomIndex deck in
  t ← initializeTableRows deck;
  let d := dealCards (initRemainingDeck t) numPlayers in
  Some (mkNewGame (mkGameState selecting 1 (initRows t) 0 [] [] None)
                  (hands d)).

(** ** The rows of [lobby_players], as both game screens read them *)

Module Lobby.
Record LobbyPlayer := mkLobbyPlayer {
  id : string;
  lobby_id : string;
  player_id : string;
  nickname : string;
  score : Z;
  hand : list Card;
  selected_card : option Card;
  is_ready : bool;
  joined_at : string
}.

(** [players.filter(p => p.selected_card).map(p => ({playerId: p.player_id,
    playerName: p.nickname, card: p.selected_card}))] *)
Definition revealed (players : list LobbyPlayer) : list RevealedCard :=
  omap (fun p => mkRevealed (player_id p) (nickname p) <$> selected_card p)
       players.

(** [p.hand.filter(c => c.number !== p.selected_card?.number)]: with no
    selected card the right-hand side is [undefined] and every card
    stays. *)
Definition handWithoutSelected (p : LobbyPlayer) : list Card :=
  filter (fun c => Some (number c) ≠ (number <$> selected_card p)) (hand p).

(** [playersData.reduce((prev, curr) => prev.score < curr.score ? prev : curr)]
    of [fetchGameData] (the same in both screens). *)
Definition winnerData (playersData : list LobbyPlayer)
    : option LobbyPlayer :=
  match playersData with
  | [] => None
  | first :: rest =>
      Some (foldl (fun prev curr =>
                     if bool_decide (score prev < score curr)
                     then prev else curr) first rest)
  end.
End Lobby.

(** What the placement loops of both screens carry along. [resolved] is not
    in the source: it is a log, extended at every assignment
    [currentRows = newRows], of the card that assignment put on the table. *)
Record Placing := mkPlacing {
  currentRows : list TableRow;
  playerScoreUpdates : gmap string Z;
  cardsNeedingRowSelection : list RevealedCard;
  resolved : list Card
}.

(** [playerScoreUpdates[pid] = (playerScoreUpdates[pid] || 0) + pigsTaken] *)
Definition addPigs (updates : gmap string Z) (pid : string) (taken : Z)
    : gmap string Z :=
  <[pid := default 0 (updates !! pid) + taken]> updates.

(** The auto-selection loop both screens inline:
    [let minPigs = Infinity; let minIndex = 0;
     for (i ...) { pigs = currentRows[i].cards.reduce(...);
                   if (pigs < minPigs) { minPigs = pigs; minIndex = i } }] *)
Fixpoint minPigsLoop (rows : list TableRow) (i : Z) (minPigs : num)
    (minIndex : Z) : Z :=
  match rows with
  | [] => minIndex
  | row :: rows' =>
      let pigs := foldl (fun sum c => sum + pigs c) 0 (cards row) in
      if lt_num pigs minPigs
      then minPigsLoop rows' (i + 1) (Finite pigs) i
      else minPigsLoop rows' (i + 1) minPigs minIndex
  end.

(** The [else] branch shared by both loops: [placeCardInRow], then
    [if (pigsTaken !== 0) playerScoreUpdates[pid] = ...]. *)
Definition placeNormal (st : Placing) (r : RevealedCard) (rowIndex : Z)
    : option Placing :=
  p ← placeCardInRow (card r) rowIndex (currentRows st);
  Some (mkPlacing (newRows p)
          (if bool_decide (pigsTaken p ≠ 0)
           then addPigs (playerScoreUpdates st) (playerId r) (pigsTaken p)
           else playerScoreUpdates st)
          (cardsNeedingRowSelection st)
          (resolved st ++ [card r])).

(** [takeRow] at the given index, then the unconditional score update. *)
Definition captureRow (st : Placing) (r : RevealedCard) (rowIndex : Z)
    : option Placing :=
  p ← takeRow (card r) rowIndex (currentRows st);
  Some (mkPlacing (newRows p)
          (addPigs (playerScoreUpdates st) (playerId r) (pigsTaken p))
          (cardsNeedingRowSelection st)
          (resolved st ++ [card r])).

(** ** The earlier game screen (screens/GameScreen.tsx without the
    [row_selection] phase): one loop, automatic row capture *)

Module GameScreen1.
Import Lobby.

(** One iteration of [for (const {playerId: pid, card} of sorted)] in
    [processRevealAndPlace]. *)
Definition placeOne (players : list LobbyPlayer) (st : Placing)
    (r : RevealedCard) : option Placing :=
  match List.find (fun p => bool_decide (player_id p = playerId r)) players
  with
  | None => Some st
  | Some _ =>
      rowIndex ← findRowForCard (card r) (currentRows st);
      if bool_decide (rowIndex = -1)
      then captureRow st r (minPigsLoop (currentRows st) 0 Infinity 0)
      else placeNormal st r rowIndex
  end.

Fixpoint placeAll (players : list LobbyPlayer) (sorted : list RevealedCard)
    (st : Placing) : option Placing :=
  match sorted with
  | [] => Some st
  | r :: sorted' => st' ← placeOne players st r; placeAll players sorted' st'
  end.

(** [processRevealAndPlace] up to the end of its placement loop. *)
Definition processRevealAndPlace (players : list LobbyPlayer)
    (tableRows : list TableRow) : option Placing :=
  let sorted := sortRevealedCards card (revealed players) in
  placeAll players sorted (mkPlacing tableRows ∅ [] []).

(** [players.every(p => p.hand.filter(...).length === 0)] *)
Definition allHandsEmpty (players : list LobbyPlayer) : bool :=
  forallb (fun p => bool_decide (length (handWithoutSelected p) = 0%nat))
          players.
End GameScreen1.

(** ** The later game screen (screens/GameScreen.tsx with the
    [row_selection] phase): two loops *)

Module GameScreen2.
Import Lobby.

Section Placement.
(** The local client's [playerId]. *)
Variable me : string.
(** The row index [waitForRowSelection()] resolves to, for the pending
    card and the table shown to the player. *)
Variable waitForRowSelection : Card -> list TableRow -> Z.

(** One iteration of the first loop of [processCardPlacements]. *)
Definition firstPassOne (st : Placing) (r : RevealedCard)
    : option Placing :=
  rowIndex ← findRowForCard (card r) (currentRows st);
  if bool_decide (rowIndex = -1)
  then Some (mkPlacing (currentRows st) (playerScoreUpdates st)
               (cardsNeedingRowSelection st ++ [r]) (resolved st))
  else placeNormal st r rowIndex.

Fixpoint firstPass (sorted : list RevealedCard) (st : Placing)
    : option Placing :=
  match sorted with
  | [] => Some st
  | r :: sorted' => st' ← firstPassOne st r; firstPass sorted' st'
  end.

(** One iteration of the second loop, over
    [cardsNeedingRowSelection]. *)
Definition selectionOne (st : Placing) (r : RevealedCard)
    : option Placing :=
  if bool_decide (playerId r = me)
  then captureRow st r (waitForRowSelection (card r) (currentRows st))
  else captureRow st r (minPigsLoop (currentRows st) 0 Infinity 0).

Fixpoint selectionPass (pending : list RevealedCard) (st : Placing)
    : option Placing :=
  match pending with
  | [] => Some st
  | r :: pending' => st' ← selectionOne st r; selectionPass pending' st'
  end.

(** [processCardPlacements] up to the end of its second loop. *)
Definition processCardPlacements (sorted : list RevealedCard)
    (tableRows : list TableRow) : option Placing :=
  st ← firstPass sorted (mkPlacing tableRows ∅ [] []);
  selectionPass (cardsNeedingRowSelection st) st.

(** [processRevealAndPlace]: reveal, sort, then (after the countdown)
    [processCardPlacements(sorted)]. *)
Definition processRevealAndPlace (players : list LobbyPlayer)
    (tableRows : list TableRow) : option Placing :=
  processCardPlacements (sortRevealedCards card (revealed players))
                        tableRows.
End Placement.

(** [players.length > 0 && players.every(...)] *)
Definition allHandsEmpty (players : list LobbyPlayer) : bool :=
  bool_decide (0 < length players)%nat
  && forallb (fun p => bool_decide (length (handWithoutSelected p) = 0%nat))
             players.
End GameScreen2.

(** ** Notions the statements use, and the example data *)

(** The sum of the pig values of a list of cards, written as the spec
    states it; [calculateRowPigs] accumulates the same sum from the left. *)
Definition penaltySum (cs : list Card) : Z := foldr Z.add 0 (pigs <$> cs).

(** The card of the deck with number [n]. *)
Definition c_ (n : Z) : Card := mkCard n (calculatePigValue n).

(** A table whose first row is full. *)
Definition fullTable : list TableRow :=
  [mkRow [c_ 3; c_ 5; c_ 10; c_ 11; c_ 12]; mkRow [c_ 20];
   mkRow [c_ 30]; mkRow [c_ 40]].

(** Three participants, two of them sharing the lowest score. *)
Definition ann : Player := mkPlayer "1" "Ann" 12 [] true true None.
Definition bob : Player := mkPlayer "2" "Bob" 7 [] false true None.
Definition cyd : Player := mkPlayer "3" "Cyd" 7 [] false true None.

(** A participant's hand without the still-pending selected card, as the
    spec words it. *)
Definition handExcludingSelected (p : Player) : list Card :=
  filter (fun c => Some c ≠ selectedCard p) (hand p).

(** A participant whose hand holds the selected card and nothing else. *)
Definition lastCardHolder : Player :=
  mkPlayer "1" "Ann" 0 [c_ 7] true true (Some (c_ 7)).

(** Row [row] takes card [c], at distance [d] from its last card. *)
Definition qualifying (c : Card) (row : TableRow) (d : Z) : Prop :=
  exists lastCard,
    last (cards row) = Some lastCard
    /\ number lastCard < number c
    /\ d = number c - number lastCard.

(** What [bestRowIndex] and [smallestDifference] hold once the loop of
    [findRowForCard] has gone through the rows [pre]. *)
Definition bestSoFar (c : Card) (pre : list TableRow) (best : Z) (sd : num)
    : Prop :=
  match sd with
  | Infinity =>
      best = -1 /\ forall j row d, pre !! j = Some row -> ~ qualifying c row d
  | Finite d =>
      0 <= best
      /\ (exists row, pre !! Z.to_nat best = Some row /\ qualifying c row d)
      /\ forall j row d', pre !! j = Some row -> qualifying c row d' ->
           d <= d' /\ (d' = d -> (Z.to_nat best <= j)%nat)
  end.

(** The rows of the spec's example end in 2, 7, 15 and 40. *)
Definition exampleRows : list TableRow :=
  [mkRow [c_ 1; c_ 2]; mkRow [c_ 7]; mkRow [c_ 15]; mkRow [c_ 38; c_ 40]].

(** The ten slots of hand [p] before sorting: [deck[k]] for the ten
    positions from [start] on. *)
Definition slots (deck : list Card) (start : nat) : list (option Card) :=
  (fun k => deck !! k) <$> seq start 10.

(** A reveal batch of two: rows ending in 10, 20, 30 and 41, a guest who
    selected the 5 and the host who selected the 50. *)
Definition staleRows : list TableRow :=
  [mkRow [c_ 10]; mkRow [c_ 20]; mkRow [c_ 30]; mkRow [c_ 41]].

Definition guest : Lobby.LobbyPlayer :=
  Lobby.mkLobbyPlayer "a" "L" "P1" "Ann" 0 [c_ 5; c_ 60] (Some (c_ 5))
                      true "t1".

Definition host : Lobby.LobbyPlayer :=
  Lobby.mkLobbyPlayer "b" "L" "P2" "Bob" 0 [c_ 50; c_ 70] (Some (c_ 50))
                      true "t0".

(** A row whose cards are strictly ascending in number. *)
Definition ascendingRow (row : TableRow) : Prop :=
  StronglySorted (fun a b => number a < number b) (cards row).

(** Row [k] is the first of the rows with the lowest pig total. *)
Definition firstMinPigs (rows : list TableRow) (k : Z) : Prop :=
  exists row,
    at_index rows k = Some row
    /\ (forall row', row' ∈ rows ->
                     calculateRowPigs row <= calculateRowPigs row')
    /\ (forall (j : nat) row', (j < Z.to_nat k)%nat -> rows !! j = Some row' ->
                               calculateRowPigs row < calculateRowPigs row').

(** Every row of the table holds between 1 and 5 cards. *)
Definition tableOk (rows : list TableRow) : Prop :=
  Forall (fun row => (1 <= length (cards row) <= 5)%nat) rows.

(** What one resolved card does to the loop state. *)
Definition resolvedOne (st st' : Placing) (r : RevealedCard) : Prop :=
  length (currentRows st') = length (currentRows st)
  /\ tableOk (currentRows st')
  /\ cardsNeedingRowSelection st' = cardsNeedingRowSelection st
  /\ resolved st' = resolved st ++ [card r].

(** A table on which the 5 of the guest finds a row. *)
Definition lowRows : list TableRow :=
  [mkRow [c_ 1]; mkRow [c_ 20]; mkRow [c_ 30]; mkRow [c_ 41]].

(** The pigs lying on the table. *)
Definition tablePigs (rows : list TableRow) : Z :=
  foldr Z.add 0 (calculateRowPigs <$> rows).

(** The sum of all score updates of a batch. *)
Definition totalUpdates (updates : gmap string Z) : Z :=
  map_fold (fun _ v acc => v + acc) 0 updates.

(** The pigs on the table plus the pigs charged so far. *)
Definition pigBalance (st : Placing) : Z :=
  tablePigs (currentRows st) + totalUpdates (playerScoreUpdates st).

(** ** Theorems *)

(** C4. For every number in 1..104, [calculatePigValue] is -11 on the nine
    doubles 11, 22, ..., 99, otherwise 2 when the number mod 10 is 5,
    otherwise 3 when it is 0 mod 10, otherwise 1; the doubles check comes
    first, so 55 gives -11, 90 gives 3 and 7 gives 1. *)
Theorem calculatePigValue_table (n : Z) :
  1 <= n <= 104 ->
  calculatePigValue n =
    (if bool_decide (n ∈ [11; 22; 33; 44; 55; 66; 77; 88; 99]) then -11
     else if bool_decide (n `mod` 10 = 5) then 2
     else if bool_decide (n `mod` 10 = 0) then 3
     else 1)
  /\ calculatePigValue 55 = -11
  /\ calculatePigValue 90 = 3
  /\ calculatePigValue 7 = 1.
Proof.
  intros Hn. split; [|done].
  unfold calculatePigValue, includes, SPECIAL_DOUBLES.
  rewrite Z.rem_mod_nonneg by lia. reflexivity.
Qed.

Lemma calculatePigValue_table_witness :
  calculatePigValue 55 =
    (if bool_decide (55 ∈ [11; 22; 33; 44; 55; 66; 77; 88; 99]) then -11
     else if bool_decide (55 `mod` 10 = 5) then 2
     else if bool_decide (55 `mod` 10 = 0) then 3
     else 1)
  /\ calculatePigValue 55 = -11
  /\ calculatePigValue 90 = 3
  /\ calculatePigValue 7 = 1.
Proof. apply (calculatePigValue_table 55). lia. Defined.

(** *** Row resolution *)

Lemma foldl_pigs_shift (cs : list Card) (a : Z) :
  foldl (fun sum c => sum + pigs c) a cs = a + penaltySum cs.
Proof.
  revert a. induction cs as [|c cs IH]; intros a; simpl.
  - change (penaltySum []) with 0. lia.
  - rewrite IH. change (penaltySum (c :: cs)) with (pigs c + penaltySum cs).
    lia.
Qed.

Lemma calculateRowPigs_sum (row : TableRow) :
  calculateRowPigs row = penaltySum (cards row).
Proof. unfold calculateRowPigs. rewrite foldl_pigs_shift. lia. Qed.

Lemma at_index_nat {A} (a : list A) (i : Z) (x : A) :
  at_index a i = Some x -> 0 <= i /\ a !! Z.to_nat i = Some x.
Proof.
  unfold at_index. case_bool_decide; [discriminate|]. intros Hlk.
  split; [lia|done].
Qed.

(** C2. On a row of exactly 5 cards [placeCardInRow] hands back the sum of
    their pig values and those 5 cards, and leaves row [i] holding the new
    card alone; on a row of fewer than 5 cards it appends the card, takes no
    pigs and no cards. The other rows are those of the input table. *)
Theorem placeCardInRow_capture_or_append
    (c : Card) (i : Z) (rows : list TableRow) (row : TableRow) :
  0 <= i < 4 ->
  at_index rows i = Some row ->
  (length (cards row) = 5%nat ->
     placeCardInRow c i rows =
       Some (mkPlacement (<[Z.to_nat i := mkRow [c]]> rows)
                         (penaltySum (cards row)) (cards row))
     /\ (<[Z.to_nat i := mkRow [c]]> rows) !! Z.to_nat i = Some (mkRow [c]))
  /\ ((length (cards row) < 5)%nat ->
     placeCardInRow c i rows =
       Some (mkPlacement (<[Z.to_nat i := mkRow (cards row ++ [c])]> rows)
                         0 [])
     /\ (<[Z.to_nat i := mkRow (cards row ++ [c])]> rows) !! Z.to_nat i
        = Some (mkRow (cards row ++ [c]))).
Proof.
  intros Hi Hrow. pose proof (at_index_nat _ _ _ Hrow) as [_ Hlk].
  pose proof (lookup_lt_Some _ _ _ Hlk) as Hlt.
  unfold placeCardInRow. rewrite Hrow. split; intros Hlen.
  - rewrite bool_decide_eq_true_2 by lia.
    rewrite calculateRowPigs_sum. split; [done|].
    by apply list_lookup_insert_eq.
  - rewrite bool_decide_eq_false_2 by lia. split; [done|].
    by apply list_lookup_insert_eq.
Qed.

Lemma placeCardInRow_capture_or_append_witness :
  placeCardInRow (c_ 13) 0 fullTable =
    Some (mkPlacement
            [mkRow [c_ 13]; mkRow [c_ 20]; mkRow [c_ 30]; mkRow [c_ 40]]
            (-4) [c_ 3; c_ 5; c_ 10; c_ 11; c_ 12])
  /\ placeCardInRow (c_ 21) 1 fullTable =
    Some (mkPlacement
            [mkRow [c_ 3; c_ 5; c_ 10; c_ 11; c_ 12]; mkRow [c_ 20; c_ 21];
             mkRow [c_ 30]; mkRow [c_ 40]]
            0 []).
Proof.
  split.
  - destruct (placeCardInRow_capture_or_append (c_ 13) 0 fullTable
                (mkRow [c_ 3; c_ 5; c_ 10; c_ 11; c_ 12])) as [H _];
      [lia | reflexivity |].
    destruct H as [H _]; [reflexivity | exact H].
  - destruct (placeCardInRow_capture_or_append (c_ 21) 1 fullTable
                (mkRow [c_ 20])) as [_ H]; [lia | reflexivity |].
    destruct H as [H _]; [simpl; lia | exact H].
Defined.

(** C8. On a table of exactly 4 rows and a row index in [0,4), both
    [placeCardInRow] and [takeRow] return, and the table they return has
    exactly 4 rows. *)
Theorem table_keeps_four_rows (c : Card) (i : Z) (rows : list TableRow) :
  0 <= i < 4 ->
  length rows = 4%nat ->
  (exists p, placeCardInRow c i rows = Some p /\ length (newRows p) = 4%nat)
  /\ (exists p, takeRow c i rows = Some p /\ length (newRows p) = 4%nat).
Proof.
  intros Hi Hlen.
  assert (exists row, at_index rows i = Some row) as [row Hrow].
  { unfold at_index. rewrite bool_decide_eq_false_2 by lia.
    apply lookup_lt_is_Some. lia. }
  unfold placeCardInRow, takeRow. rewrite Hrow. split.
  - case_bool_decide; eexists; (split; [reflexivity|]); simpl;
      by rewrite length_insert.
  - eexists; split; [reflexivity|]. simpl. by rewrite length_insert.
Qed.

Lemma table_keeps_four_rows_witness :
  (exists p, placeCardInRow (c_ 13) 0 fullTable = Some p
             /\ length (newRows p) = 4%nat)
  /\ (exists p, takeRow (c_ 13) 0 fullTable = Some p
                /\ length (newRows p) = 4%nat).
Proof. apply (table_keeps_four_rows (c_ 13) 0 fullTable); [lia | reflexivity]. Defined.

(** *** Winner *)

Lemma getWinner_fold (first : Player) (rest : list Player) :
  let w := foldl (fun winner player =>
                    if bool_decide (score player < score winner)
                    then player else winner) first rest in
  exists k : nat,
    (first :: rest) !! k = Some w
    /\ (forall p, p ∈ first :: rest -> score w <= score p)
    /\ (forall j p, (j < k)%nat -> (first :: rest) !! j = Some p ->
                    score w < score p).
Proof.
  induction rest as [|x rest IH] using rev_ind; simpl.
  - exists 0%nat. split; [done|]. split.
    + intros p Hp. apply list_elem_of_singleton in Hp. subst. lia.
    + intros j p Hj. lia.
  - rewrite foldl_app. simpl. destruct IH as (k & Hk & Hmin & Hbefore).
    set (w := foldl _ first rest) in *.
    case_bool_decide as Hlt.
    + exists (length (first :: rest)). split; [|split].
      * change (first :: rest ++ [x]) with ((first :: rest) ++ [x]).
        rewrite lookup_app_r by lia. by rewrite Nat.sub_diag.
      * intros p Hp. rewrite app_comm_cons in Hp.
        apply elem_of_app in Hp as [Hp|Hp].
        -- specialize (Hmin p Hp). lia.
        -- apply list_elem_of_singleton in Hp. subst. lia.
      * intros j p Hj Hp. rewrite app_comm_cons in Hp.
        rewrite lookup_app_l in Hp by done.
        apply list_elem_of_lookup_2 in Hp. specialize (Hmin p Hp). lia.
    + exists k. split; [|split].
      * rewrite app_comm_cons. apply lookup_app_l_Some. done.
      * intros p Hp. rewrite app_comm_cons in Hp.
        apply elem_of_app in Hp as [Hp|Hp]; [by apply Hmin|].
        apply list_elem_of_singleton in Hp. subst. lia.
      * intros j p Hj Hp. apply (Hbefore j p Hj).
        rewrite app_comm_cons in Hp. rewrite lookup_app_l in Hp; [done|].
        apply lookup_lt_Some in Hk. lia.
Qed.

(** C10. On a non-empty list [getWinner] returns a participant of the list
    whose score is at most every participant's score, and every participant
    before it in the list has a strictly greater score: among those sharing
    the minimum it is the first in list order. *)
Theorem getWinner_first_minimum (players : list Player) :
  players <> [] ->
  exists (w : Player) (k : nat),
    getWinner players = Some w
    /\ players !! k = Some w
    /\ (forall p, p ∈ players -> score w <= score p)
    /\ (forall j p, (j < k)%nat -> players !! j = Some p ->
                    score w < score p).
Proof.
  destruct players as [|first rest]; [done|]. intros _.
  destruct (getWinner_fold first rest) as (k & Hk & Hmin & Hbefore).
  eexists _, k. split; [reflexivity|]. auto.
Qed.

Lemma getWinner_first_minimum_witness :
  exists (w : Player) (k : nat),
    getWinner [ann; bob; cyd] = Some w
    /\ [ann; bob; cyd] !! k = Some w
    /\ (forall p, p ∈ [ann; bob; cyd] -> score w <= score p)
    /\ (forall j p, (j < k)%nat -> [ann; bob; cyd] !! j = Some p ->
                    score w < score p).
Proof. apply (getWinner_first_minimum [ann; bob; cyd]). discriminate. Defined.

(** On the witness list the winner is Bob, the first of the two players
    with score 7, while the [reduce] of [fetchGameData] keeps the later
    participant on a tie. *)
Lemma getWinner_tie_example : getWinner [ann; bob; cyd] = Some bob.
Proof. reflexivity. Qed.

Lemma winnerData_tie_example :
  Lobby.score <$> Lobby.winnerData
    [Lobby.mkLobbyPlayer "a" "L" "1" "Ann" 12 [] None true "t1";
     Lobby.mkLobbyPlayer "b" "L" "2" "Bob" 7 [] None true "t2";
     Lobby.mkLobbyPlayer "c" "L" "3" "Cyd" 7 [] None true "t3"] = Some 7
  /\ Lobby.nickname <$> Lobby.winnerData
    [Lobby.mkLobbyPlayer "a" "L" "1" "Ann" 12 [] None true "t1";
     Lobby.mkLobbyPlayer "b" "L" "2" "Bob" 7 [] None true "t2";
     Lobby.mkLobbyPlayer "c" "L" "3" "Cyd" 7 [] None true "t3"] = Some "Cyd".
Proof. split; reflexivity. Qed.

(** *** Round over *)

(** C5, as stated, fails: a participant whose hand holds only the selected
    card has an empty hand once that card is excluded, and [isRoundComplete]
    is still false. *)
Lemma isRoundComplete_counts_selected_card :
  Forall (fun p => handExcludingSelected p = []) [lastCardHolder]
  /\ isRoundComplete [lastCardHolder] = false.
Proof. split; [|reflexivity]. repeat constructor. Qed.

Lemma forallb_empty_hands {P} (h : P -> list Card) (players : list P) :
  forallb (fun p => bool_decide (length (h p) = 0%nat)) players = true
  <-> Forall (fun p => h p = []) players.
Proof.
  induction players as [|p players IH]; simpl.
  - split; [constructor|done].
  - rewrite andb_true_iff, bool_decide_eq_true, IH, Forall_cons.
    by rewrite length_zero_iff_nil.
Qed.

(** C5, amended. [isRoundComplete] is true exactly when every participant's
    hand is empty, the selected card counting like any other card. The check
    that leaves out the card with the selected card's number is the inline
    [allHandsEmpty] of the game screens, which in the second screen also
    asks for at least one participant. *)
Theorem isRoundComplete_iff_hands_empty :
  (forall players : list Player,
     isRoundComplete players = true
     <-> Forall (fun p => hand p = []) players)
  /\ (forall players : list Lobby.LobbyPlayer,
        GameScreen1.allHandsEmpty players = true
        <-> Forall (fun p => Lobby.handWithoutSelected p = []) players)
  /\ (forall players : list Lobby.LobbyPlayer,
        GameScreen2.allHandsEmpty players = true
        <-> players <> []
            /\ Forall (fun p => Lobby.handWithoutSelected p = []) players).
Proof.
  split; [|split]; intros players.
  - unfold isRoundComplete. apply forallb_empty_hands.
  - unfold GameScreen1.allHandsEmpty. apply forallb_empty_hands.
  - unfold GameScreen2.allHandsEmpty.
    rewrite andb_true_iff, bool_decide_eq_true, forallb_empty_hands.
    assert ((0 < length players)%nat <-> players <> []) as ->; [|done].
    destruct players; simpl; split; intros; try done; lia.
Qed.

(** *** Placement policy *)

Lemma qualifying_fun c row d d' :
  qualifying c row d -> qualifying c row d' -> d = d'.
Proof. intros (l & Hl & _ & ->) (l' & Hl' & _ & ->). congruence. Qed.

Lemma lookup_snoc_inv {A} (pre : list A) (x y : A) (j : nat) :
  (pre ++ [x]) !! j = Some y ->
  ((j < length pre)%nat /\ pre !! j = Some y) \/ (j = length pre /\ y = x).
Proof.
  intros H. destruct (decide (j < length pre)%nat) as [Hlt|Hge].
  - left. rewrite lookup_app_l in H by done. done.
  - right. rewrite lookup_app_r in H by lia.
    destruct (j - length pre)%nat as [|n] eqn:E; simpl in H; [|done].
    split; [lia|congruence].
Qed.

Lemma bestSoFar_skip c pre row best sd :
  (forall d, ~ qualifying c row d) ->
  bestSoFar c pre best sd -> bestSoFar c (pre ++ [row]) best sd.
Proof.
  intros Hno. destruct sd as [d|]; simpl.
  - intros (H0 & (r & Hr & Hq) & Hmin). split; [done|]. split.
    + exists r. split; [|done]. by apply lookup_app_l_Some.
    + intros j row' d' Hj Hq'.
      apply lookup_snoc_inv in Hj as [[_ Hj]|[_ ->]]; [eauto|].
      by destruct (Hno d').
  - intros [-> Hnone]. split; [done|]. intros j row' d' Hj.
    apply lookup_snoc_inv in Hj as [[_ Hj]|[_ ->]]; eauto.
Qed.

Lemma bestSoFar_keep c pre row best d diff :
  qualifying c row diff -> d <= diff ->
  bestSoFar c pre best (Finite d) -> bestSoFar c (pre ++ [row]) best (Finite d).
Proof.
  simpl. intros Hq Hle (H0 & (r & Hr & Hqr) & Hmin). split; [done|]. split.
  - exists r. split; [|done]. by apply lookup_app_l_Some.
  - intros j row' d' Hj Hq'.
    apply lookup_snoc_inv in Hj as [[_ Hj]|[-> ->]]; [eauto|].
    rewrite (qualifying_fun _ _ _ _ Hq' Hq). split; [done|].
    intros _. apply lookup_lt_Some in Hr. lia.
Qed.

Lemma bestSoFar_take c pre row best sd diff :
  qualifying c row diff -> lt_num diff sd = true ->
  bestSoFar c pre best sd ->
  bestSoFar c (pre ++ [row]) (Z.of_nat (length pre)) (Finite diff).
Proof.
  intros Hq Hlt Hinv. simpl. split; [lia|]. rewrite Nat2Z.id. split.
  - exists row. split; [|done]. by rewrite lookup_app_r, Nat.sub_diag by lia.
  - intros j row' d' Hj Hq'.
    apply lookup_snoc_inv in Hj as [[Hjlt Hj]|[-> ->]].
    + destruct sd as [d|]; simpl in *.
      * destruct Hinv as (_ & _ & Hmin).
        destruct (Hmin j row' d' Hj Hq') as [Hle _].
        apply bool_decide_eq_true in Hlt. lia.
      * destruct Hinv as [_ Hnone]. by destruct (Hnone j row' d' Hj).
    + rewrite (qualifying_fun _ _ _ _ Hq' Hq). split; [lia|done].
Qed.

Lemma findRowLoop_bestSoFar c rest :
  forall pre best sd,
    Forall (fun row => cards row <> []) rest ->
    bestSoFar c pre best sd ->
    exists r sd',
      findRowLoop c rest (Z.of_nat (length pre)) best sd = Some r
      /\ bestSoFar c (pre ++ rest) r sd'.
Proof.
  induction rest as [|row rest IH]; intros pre best sd Hne Hinv.
  - exists best, sd. split; [done|]. by rewrite app_nil_r.
  - apply Forall_cons in Hne as [Hrow Hne]. simpl.
    destruct (last (cards row)) as [lastCard|] eqn:Hlast;
      [|by apply last_None in Hlast].
    replace (Z.of_nat (length pre) + 1)
      with (Z.of_nat (length (pre ++ [row])))
      by (rewrite length_app; simpl; lia).
    rewrite (cons_middle row pre rest), app_assoc.
    case_bool_decide as Hgt.
    + assert (qualifying c row (number c - number lastCard)) as Hq.
      { exists lastCard. split; [done|]. split; [lia|done]. }
      destruct (lt_num _ sd) eqn:Hlt.
      * apply IH; [done|]. by eapply bestSoFar_take.
      * destruct sd as [d|]; [|done]. apply IH; [done|].
        eapply bestSoFar_keep; [done| |done].
        simpl in Hlt. apply bool_decide_eq_false in Hlt. lia.
    + apply IH; [done|]. apply bestSoFar_skip; [|done].
      intros d (l & Hl & Hlt & _). simplify_eq. lia.
Qed.

(** C1. On a table whose rows are all non-empty, [findRowForCard] returns,
    and [-1] comes back exactly when every row's last card is greater than
    or equal to the card; otherwise the result indexes a row whose last card
    is strictly less than the card, no row with a strictly smaller last card
    is closer, and no earlier row is equally close. *)
Theorem findRowForCard_closest_lower_row (c : Card) (rows : list TableRow) :
  Forall (fun row => cards row <> []) rows ->
  exists r,
    findRowForCard c rows = Some r
    /\ (r = -1 <->
        forall row lastCard,
          row ∈ rows -> last (cards row) = Some lastCard ->
          number c <= number lastCard)
    /\ (r <> -1 ->
        exists row lastCard,
          at_index rows r = Some row
          /\ last (cards row) = Some lastCard
          /\ number lastCard < number c
          /\ forall (j : nat) row' lastCard',
               rows !! j = Some row' ->
               last (cards row') = Some lastCard' ->
               number lastCard' < number c ->
               number c - number lastCard <= number c - number lastCard'
               /\ (number c - number lastCard' = number c - number lastCard ->
                   r <= Z.of_nat j)).
Proof.
  intros Hne.
  destruct (findRowLoop_bestSoFar c rows [] (-1) Infinity Hne)
    as (r & sd & Hr & Hinv).
  { split; [done|]. intros j row d Hj. done. }
  exists r. split; [exact Hr|]. simpl in Hinv.
  destruct sd as [d|]; simpl in Hinv.
  - destruct Hinv as (H0 & (row & Hrow & lc & Hlc & Hlt & ->) & Hmin).
    split.
    + split; [lia|]. intros Hall. apply list_elem_of_lookup_2 in Hrow.
      specialize (Hall row lc Hrow Hlc). lia.
    + intros _. exists row, lc. unfold at_index.
      rewrite bool_decide_eq_false_2 by lia. repeat split; try done.
      * destruct (Hmin j row' (number c - number lastCard') H) as [Hle _];
          [|lia]. by exists lastCard'.
      * intros Heq.
        destruct (Hmin j row' (number c - number lastCard') H) as [_ Hj];
          [by exists lastCard'|]. specialize (Hj Heq). lia.
  - destruct Hinv as [-> Hnone]. split; [|done]. split; [|done].
    intros _ row lc Hrow Hlc. apply list_elem_of_lookup in Hrow as [j Hj].
    destruct (decide (number c <= number lc)) as [|Hn]; [done|].
    destruct (Hnone j row (number c - number lc) Hj).
    exists lc. split; [done|]. split; [lia|done].
Qed.

Lemma findRowForCard_closest_lower_row_witness :
  exists r,
    findRowForCard (c_ 10) exampleRows = Some r
    /\ (r = -1 <->
        forall row lastCard,
          row ∈ exampleRows -> last (cards row) = Some lastCard ->
          number (c_ 10) <= number lastCard)
    /\ (r <> -1 ->
        exists row lastCard,
          at_index exampleRows r = Some row
          /\ last (cards row) = Some lastCard
          /\ number lastCard < number (c_ 10)
          /\ forall (j : nat) row' lastCard',
               exampleRows !! j = Some row' ->
               last (cards row') = Some lastCard' ->
               number lastCard' < number (c_ 10) ->
               number (c_ 10) - number lastCard
                 <= number (c_ 10) - number lastCard'
               /\ (number (c_ 10) - number lastCard'
                     = number (c_ 10) - number lastCard ->
                   r <= Z.of_nat j)).
Proof.
  apply (findRowForCard_closest_lower_row (c_ 10) exampleRows).
  repeat constructor; discriminate.
Defined.

(** The two examples of the spec: card 10 goes to the row ending in 7, and
    a card below every row end finds no row. *)
Lemma findRowForCard_examples :
  findRowForCard (c_ 10) exampleRows = Some 1
  /\ findRowForCard (c_ 1) [mkRow [c_ 2]; mkRow [c_ 7]] = Some (-1).
Proof. split; reflexivity. Qed.

(** *** Sorting *)

Section SortBy.
Context {A : Type} (key : A -> Z).

Lemma insertBy_perm (x : A) (l : list A) : insertBy key x l ≡ₚ x :: l.
Proof.
  induction l as [|y l IH]; simpl; [done|].
  case_bool_decide; [done|]. rewrite IH. apply Permutation_swap.
Qed.

Lemma sortBy_perm (l : list A) : sortBy key l ≡ₚ l.
Proof.
  induction l as [|x l IH]; simpl; [done|].
  by rewrite insertBy_perm, IH.
Qed.

Lemma sortBy_length (l : list A) : length (sortBy key l) = length l.
Proof. by rewrite sortBy_perm. Qed.

Lemma insertBy_sorted (x : A) (l : list A) :
  StronglySorted (fun a b => key a <= key b) l ->
  StronglySorted (fun a b => key a <= key b) (insertBy key x l).
Proof.
  induction 1 as [|y l Hl IH Hy]; simpl.
  - repeat constructor.
  - case_bool_decide as Hxy.
    + constructor; [by constructor|]. constructor; [done|].
      eapply Forall_impl; [exact Hy|]. simpl. intros z Hz. lia.
    + constructor; [done|]. rewrite insertBy_perm.
      constructor; [lia|done].
Qed.

Lemma sortBy_sorted (l : list A) :
  StronglySorted (fun a b => key a <= key b) (sortBy key l).
Proof.
  induction l as [|x l IH]; simpl; [constructor|].
  by apply insertBy_sorted.
Qed.
End SortBy.

(** *** Dealing *)

Lemma dealHandLoop_slots deck todo hand deckIndex :
  dealHandLoop deck todo hand deckIndex
  = (hand ++ ((fun k => deck !! k) <$> seq deckIndex todo),
     (deckIndex + todo)%nat).
Proof.
  revert hand deckIndex. induction todo as [|todo IH]; intros hand k; simpl.
  - by rewrite app_nil_r, Nat.add_0_r.
  - rewrite IH, <- app_assoc. simpl. f_equal. lia.
Qed.

Lemma dealLoop_slots deck todo hs deckIndex :
  dealLoop deck todo hs deckIndex
  = (hs ++ ((fun p => sortHand (slots deck (deckIndex + 10 * p)))
              <$> seq 0 todo),
     (deckIndex + 10 * todo)%nat).
Proof.
  revert hs deckIndex. induction todo as [|todo IH]; intros hs k.
  - simpl. by rewrite app_nil_r, Nat.add_0_r.
  - cbn [dealLoop]. rewrite dealHandLoop_slots. cbn [app].
    rewrite IH, <- app_assoc. f_equal.
    + f_equal. cbn [seq fmap list_fmap app]. f_equal.
      * unfold slots. by rewrite Nat.mul_0_r, Nat.add_0_r.
      * rewrite <- (fmap_S_seq 0), <- list_fmap_compose.
        apply list_fmap_ext. intros _ p _. simpl. f_equal. f_equal. lia.
    + lia.
Qed.

Lemma dealCards_slots deck n :
  dealCards deck n
  = mkDeal ((fun p => sortHand (slots deck (10 * p))) <$> seq 0 n)
           (drop (10 * n) deck).
Proof. unfold dealCards. by rewrite dealLoop_slots. Qed.

Lemma omap_id_Some (l : list Card) : omap (fun x => x) (Some <$> l) = l.
Proof. induction l as [|x l IH]; [done|]. csimpl. by rewrite IH. Qed.

Lemma slots_full deck start :
  (start + 10 <= length deck)%nat ->
  slots deck start = Some <$> take 10 (drop start deck).
Proof.
  intros Hlen. unfold slots. apply list_eq. intros i.
  rewrite !list_lookup_fmap.
  destruct (decide (i < 10)%nat) as [Hi|Hi].
  - rewrite lookup_seq_lt by done. simpl.
    rewrite lookup_take_lt by done. rewrite lookup_drop.
    destruct (deck !! (start + i)%nat) eqn:E; [done|].
    apply lookup_ge_None in E. lia.
  - rewrite lookup_seq_ge by lia. simpl.
    rewrite lookup_take_ge by lia. done.
Qed.

Lemma sortHand_full (l : list Card) :
  sortHand (Some <$> l) = Some <$> sortBy number l.
Proof.
  unfold sortHand. rewrite omap_id_Some, length_fmap, Nat.sub_diag. simpl.
  by rewrite app_nil_r.
Qed.

(** C9. With at least [10 n] cards in the deck and [n] in 2..10,
    [dealCards] returns exactly [n] hands; hand [p] holds exactly 10 cards,
    none of them undefined, which are the deck's elements [10p .. 10p+9]
    rearranged in ascending order of number; the remainder is
    [deck.slice(10 n)]. *)
Theorem dealCards_ten_each (deck : list Card) (n : nat) :
  (2 <= n <= 10)%nat ->
  (10 * n <= length deck)%nat ->
  length (hands (dealCards deck n)) = n
  /\ (forall p, (p < n)%nat ->
        exists h : list Card,
          hands (dealCards deck n) !! p = Some (Some <$> h)
          /\ length h = 10%nat
          /\ h ≡ₚ take 10 (drop (10 * p) deck)
          /\ StronglySorted (fun a b => number a <= number b) h)
  /\ remainingDeck (dealCards deck n) = drop (10 * n) deck.
Proof.
  intros _ Hlen. rewrite dealCards_slots. simpl. split; [|split; [|done]].
  - by rewrite length_fmap, length_seq.
  - intros p Hp. exists (sortBy number (take 10 (drop (10 * p) deck))).
    split; [|split; [|split]].
    + rewrite list_lookup_fmap, lookup_seq_lt by done. simpl.
      rewrite slots_full by lia. by rewrite sortHand_full.
    + rewrite sortBy_length, length_take, length_drop. lia.
    + apply sortBy_perm.
    + apply sortBy_sorted.
Qed.

Lemma dealCards_ten_each_witness :
  length (hands (dealCards createDeck 2)) = 2%nat
  /\ (forall p, (p < 2)%nat ->
        exists h : list Card,
          hands (dealCards createDeck 2) !! p = Some (Some <$> h)
          /\ length h = 10%nat
          /\ h ≡ₚ take 10 (drop (10 * p) createDeck)
          /\ StronglySorted (fun a b => number a <= number b) h)
  /\ remainingDeck (dealCards createDeck 2) = drop (10 * 2) createDeck.
Proof.
  apply (dealCards_ten_each createDeck 2); [lia | vm_compute; lia].
Defined.

(** A deck dealt in descending order comes back sorted, hand by hand. *)
Lemma dealCards_example :
  dealCards (c_ <$> [30; 29; 28; 27; 26; 25; 24; 23; 22; 21; 20; 19; 18; 17;
                     16; 15; 14; 13; 12; 11; 10; 9]) 2
  = mkDeal [Some <$> (c_ <$> [21; 22; 23; 24; 25; 26; 27; 28; 29; 30]);
            Some <$> (c_ <$> [11; 12; 13; 14; 15; 16; 17; 18; 19; 20])]
           (c_ <$> [10; 9]).
Proof. reflexivity. Qed.

Lemma omap_id_length (h : list (option Card)) :
  (length (omap (fun x => x) h) <= length h)%nat
  /\ (None ∈ h -> (length (omap (fun x => x) h) < length h)%nat).
Proof.
  induction h as [|[c|] h [IHle IHlt]]; csimpl.
  - split; [lia|]. intros H. by apply elem_of_nil in H.
  - split; [lia|]. intros H. apply elem_of_cons in H as [H|H]; [done|].
    specialize (IHlt H). lia.
  - split; [lia|]. intros _. lia.
Qed.

Lemma sortHand_length (h : list (option Card)) :
  length (sortHand h) = length h.
Proof.
  unfold sortHand. rewrite length_app, length_fmap, sortBy_length.
  rewrite length_replicate. pose proof (omap_id_length h) as [Hle _]. lia.
Qed.

Lemma sortHand_keeps_undefined (h : list (option Card)) :
  None ∈ h -> None ∈ sortHand h.
Proof.
  intros Hin. unfold sortHand. apply elem_of_app. right.
  pose proof (omap_id_length h) as [_ Hlt]. specialize (Hlt Hin).
  destruct (length h - length (omap (fun x => x) h))%nat as [|k] eqn:E;
    [lia|]. simpl. apply elem_of_cons. by left.
Qed.

(** C6, as stated, fails: a 3-card deck dealt to one participant is not
    rejected; a hand comes back, with [undefined] in seven of its slots. *)
Lemma dealCards_short_deck_returns_undefined :
  (length [c_ 9; c_ 4; c_ 6] < 10 * 1)%nat
  /\ dealCards [c_ 9; c_ 4; c_ 6] 1
     = mkDeal [[Some (c_ 4); Some (c_ 6); Some (c_ 9);
                None; None; None; None; None; None; None]] [].
Proof. split; [simpl; lia | reflexivity]. Qed.

(** C6, amended. [dealCards] checks nothing and always returns: on a deck
    of fewer than [10 n] cards it still hands back [n] hands of 10 slots
    each, at least one of which holds [undefined] where the deck ran out,
    and an empty remainder. *)
Theorem dealCards_short_deck (deck : list Card) (n : nat) :
  (length deck < 10 * n)%nat ->
  length (hands (dealCards deck n)) = n
  /\ (forall hand, hand ∈ hands (dealCards deck n) -> length hand = 10%nat)
  /\ (exists hand, hand ∈ hands (dealCards deck n) /\ None ∈ hand)
  /\ remainingDeck (dealCards deck n) = [].
Proof.
  intros Hlen. rewrite dealCards_slots. simpl. split; [|split; [|split]].
  - by rewrite length_fmap, length_seq.
  - intros hand Hin. apply list_elem_of_fmap in Hin as (p & -> & _).
    rewrite sortHand_length. unfold slots.
    by rewrite length_fmap, length_seq.
  - destruct n as [|n]; [lia|].
    exists (sortHand (slots deck (10 * n))). split.
    + apply list_elem_of_fmap. exists n. split; [done|].
      apply elem_of_seq. lia.
    + apply sortHand_keeps_undefined. unfold slots.
      apply list_elem_of_fmap. exists (10 * n + 9)%nat. split.
      * symmetry. apply lookup_ge_None. lia.
      * apply elem_of_seq. lia.
  - apply drop_ge. lia.
Qed.

Lemma dealCards_short_deck_witness :
  length (hands (dealCards [c_ 9; c_ 4; c_ 6] 1)) = 1%nat
  /\ (forall hand, hand ∈ hands (dealCards [c_ 9; c_ 4; c_ 6] 1) ->
                   length hand = 10%nat)
  /\ (exists hand, hand ∈ hands (dealCards [c_ 9; c_ 4; c_ 6] 1)
                   /\ None ∈ hand)
  /\ remainingDeck (dealCards [c_ 9; c_ 4; c_ 6] 1) = [].
Proof. apply (dealCards_short_deck [c_ 9; c_ 4; c_ 6] 1). simpl. lia. Defined.

(** *** Shuffling and the next round *)

Lemma swap_length l i j : length (swap l i j) = length l.
Proof.
  unfold swap. destruct (l !! i), (l !! j); try done.
  by rewrite !length_insert.
Qed.

Lemma swap_elem_of l i j c : c ∈ swap l i j -> c ∈ l.
Proof.
  unfold swap. destruct (l !! i) as [x|] eqn:Hi; [|done].
  destruct (l !! j) as [y|] eqn:Hj; [|done].
  intros Hc. apply list_elem_of_lookup in Hc as [k Hk].
  apply list_lookup_insert_Some in Hk as [(-> & -> & _)|[_ Hk]].
  { by eapply list_elem_of_lookup_2. }
  apply list_lookup_insert_Some in Hk as [(-> & -> & _)|[_ Hk]];
    by eapply list_elem_of_lookup_2.
Qed.

Lemma shuffleLoop_length rnd i l : length (shuffleLoop rnd i l) = length l.
Proof.
  revert l. induction i as [|i IH]; intros l; simpl; [done|].
  by rewrite IH, swap_length.
Qed.

Lemma shuffleLoop_elem_of rnd i l c : c ∈ shuffleLoop rnd i l -> c ∈ l.
Proof.
  revert l. induction i as [|i IH]; intros l; simpl; [done|].
  intros Hc. by eapply swap_elem_of, IH.
Qed.

Lemma sortHand_elem_of (l : list Card) (slot : option Card) :
  slot ∈ sortHand (Some <$> l) -> exists c, slot = Some c /\ c ∈ l.
Proof.
  rewrite sortHand_full. intros Hin.
  apply list_elem_of_fmap in Hin as (c & -> & Hc).
  exists c. split; [done|]. by rewrite sortBy_perm in Hc.
Qed.

(** The fresh deck of [startNewRound] has one card per number of 1..104
    that is not on the table. *)
Lemma fresh_deck_length (onTable : list Z) :
  length (filter (fun c => negb (includes onTable (number c)) = true)
                 createDeck)
  = length (filter (fun k => k ∉ onTable) (seqZ 1 104)).
Proof.
  unfold createDeck. generalize (seqZ 1 104). intros ks.
  induction ks as [|k ks IH]; [done|].
  rewrite fmap_cons, !filter_cons. simpl.
  assert (negb (includes onTable k) = true <-> k ∉ onTable) as Hiff.
  { unfold includes. by rewrite negb_true_iff, bool_decide_eq_false. }
  repeat case_decide; simpl; rewrite ?IH; try done; tauto.
Qed.

(** C7. When at least [10 n] of the numbers 1..104 are off the table,
    every slot of every hand dealt by [startNewRound] holds a card of the
    104-card deck whose number differs from the number of every card in
    every row of the table. *)
Theorem startNewRound_avoids_table
    (randomIndex : nat -> nat) (n : nat) (rows : list TableRow) :
  (forall i, (randomIndex i <= i)%nat) ->
  (10 * n <= length (filter (fun k => k ∉ rows ≫= (fun row => number <$> cards row))
                            (seqZ 1 104)))%nat ->
  forall hand slot,
    hand ∈ roundHands (startNewRound randomIndex n rows) ->
    slot ∈ hand ->
    exists c,
      slot = Some c
      /\ c ∈ createDeck
      /\ forall row c', row ∈ rows -> c' ∈ cards row -> number c <> number c'.
Proof.
  intros _ Hroom hand slot Hhand Hslot.
  unfold startNewRound in Hhand. simpl in Hhand.
  set (onTable := rows ≫= (fun row => number <$> cards row)) in *.
  set (fresh := filter _ createDeck) in Hhand.
  set (deck := shuffleDeck randomIndex fresh) in Hhand.
  assert (10 * n <= length deck)%nat as Hdeck.
  { unfold deck, shuffleDeck. rewrite shuffleLoop_length. unfold fresh.
    by rewrite fresh_deck_length. }
  rewrite dealCards_slots in Hhand. simpl in Hhand.
  apply list_elem_of_fmap in Hhand as (p & -> & Hp).
  apply elem_of_seq in Hp.
  rewrite slots_full in Hslot by lia.
  apply sortHand_elem_of in Hslot as (c & -> & Hc).
  apply subseteq_take, subseteq_drop in Hc.
  apply shuffleLoop_elem_of in Hc. unfold fresh in Hc.
  apply list_elem_of_filter in Hc as [Hoff Hdeckc].
  exists c. split; [done|]. split; [done|].
  intros row c' Hrow Hc' Heq. unfold includes in Hoff.
  apply negb_true_iff, bool_decide_eq_false in Hoff. apply Hoff.
  unfold onTable. apply list_elem_of_bind. exists row. split; [|done].
  rewrite Heq. apply list_elem_of_fmap. by exists c'.
Qed.

Lemma startNewRound_avoids_table_witness :
  exists c,
    Some (c_ 4) = Some c
    /\ c ∈ createDeck
    /\ forall row c', row ∈ exampleRows -> c' ∈ cards row ->
                      number c <> number c'.
Proof.
  apply (startNewRound_avoids_table (fun _ => 0%nat) 2 exampleRows)
    with (hand := Some <$> (c_ <$> [4; 5; 6; 8; 9; 10; 11; 12; 13; 14])).
  - intros i. lia.
  - vm_compute. lia.
  - vm_compute. left.
  - vm_compute. left.
Defined.

(** *** Resolution order of a reveal batch *)

(** [sortRevealedCards] rearranges the batch into ascending card numbers. *)
Lemma sortRevealedCards_ascending {T} (getCard : T -> Card) (l : list T) :
  sortRevealedCards getCard l ≡ₚ l
  /\ StronglySorted (fun a b => number (getCard a) <= number (getCard b))
                    (sortRevealedCards getCard l).
Proof.
  split; [apply sortBy_perm|].
  apply (sortBy_sorted (fun r => number (getCard r))).
Qed.

Lemma placeNormal_resolved st r i st' :
  placeNormal st r i = Some st' -> resolved st' = resolved st ++ [card r].
Proof.
  unfold placeNormal. intros H.
  apply bind_Some in H as (p & _ & H). by simplify_eq.
Qed.

Lemma captureRow_resolved st r i st' :
  captureRow st r i = Some st' -> resolved st' = resolved st ++ [card r].
Proof.
  unfold captureRow. intros H.
  apply bind_Some in H as (p & _ & H). by simplify_eq.
Qed.

Lemma revealed_player_found (players : list Lobby.LobbyPlayer) r :
  r ∈ Lobby.revealed players ->
  exists p,
    List.find (fun p => bool_decide (Lobby.player_id p = playerId r)) players
    = Some p.
Proof.
  intros Hr. apply list_elem_of_omap in Hr as (p & Hp & Hsel).
  apply fmap_Some in Hsel as (c & _ & ->). simpl.
  destruct (List.find _ players) as [q|] eqn:E; [by exists q|].
  apply list_elem_of_In in Hp.
  pose proof (find_none _ _ E p Hp) as Hf. simpl in Hf.
  by apply bool_decide_eq_false in Hf.
Qed.

Lemma GameScreen1_placeAll_resolved players sorted :
  forall st st',
    (forall r, r ∈ sorted -> r ∈ Lobby.revealed players) ->
    GameScreen1.placeAll players sorted st = Some st' ->
    resolved st' = resolved st ++ (card <$> sorted).
Proof.
  induction sorted as [|r sorted IH]; intros st st' Hin H; simpl in *.
  - simplify_eq. by rewrite app_nil_r.
  - apply bind_Some in H as (st1 & H1 & H).
    rewrite (IH st1 st'); [|intros r' Hr'; apply Hin; by right|done].
    rewrite (cons_middle (card r)), app_assoc. f_equal.
    unfold GameScreen1.placeOne in H1.
    destruct (revealed_player_found players r) as [p Hp];
      [apply Hin; by left|].
    rewrite Hp in H1. apply bind_Some in H1 as (i & _ & H1).
    case_bool_decide;
      eauto using placeNormal_resolved, captureRow_resolved.
Qed.

(** The loop of the first game screen puts the cards on the table one after
    the other in the sorted order, each against the table the previous ones
    left. *)
Lemma GameScreen1_resolves_in_sorted_order players tableRows st :
  GameScreen1.processRevealAndPlace players tableRows = Some st ->
  resolved st = card <$> sortRevealedCards card (Lobby.revealed players).
Proof.
  unfold GameScreen1.processRevealAndPlace. intros H.
  apply GameScreen1_placeAll_resolved in H; [done|].
  intros r Hr. by rewrite (proj1 (sortRevealedCards_ascending _ _)) in Hr.
Qed.

(** C3 fails on the second game screen. Table rows ending in 10, 20, 30 and
    41; Ann reveals 5, the host Bob reveals 50. The batch is sorted to
    5, 50, but the first loop of [processCardPlacements] only queues the 5
    and puts the 50 on the row ending in 41, against a table on which the 5
    has captured nothing yet; the 5 is resolved afterwards and takes the
    row of 10 for 3 pigs. Resolved in ascending order, as the loop of the
    first game screen does, the 5 takes the row of 41 for 1 pig and the 50
    then lands on the row ending in 30. *)
Theorem processCardPlacements_defers_low_card :
  sortRevealedCards card (Lobby.revealed [host; guest])
    = [mkRevealed "P1" "Ann" (c_ 5); mkRevealed "P2" "Bob" (c_ 50)]
  /\ GameScreen2.processRevealAndPlace "P2" (fun _ _ => 0)
       [host; guest] staleRows
     = Some (mkPlacing
               [mkRow [c_ 5]; mkRow [c_ 20]; mkRow [c_ 30];
                mkRow [c_ 41; c_ 50]]
               {[ "P1" := 3 ]}
               [mkRevealed "P1" "Ann" (c_ 5)]
               [c_ 50; c_ 5])
  /\ GameScreen1.processRevealAndPlace [host; guest] staleRows
     = Some (mkPlacing
               [mkRow [c_ 10]; mkRow [c_ 20]; mkRow [c_ 30; c_ 50];
                mkRow [c_ 5]]
               {[ "P1" := 1 ]}
               []
               [c_ 5; c_ 50]).
Proof. split; [|split]; vm_compute; reflexivity. Qed.


(** ** Further properties of the rules engine *)

(** *** The deck *)

(** X1. [createDeck] holds 104 cards, no number twice, and a card is in it
    exactly when its number is in 1..104 and its pig value is the one
    [calculatePigValue] gives that number. *)
Theorem createDeck_cards :
  length createDeck = 104%nat
  /\ NoDup (number <$> createDeck)
  /\ forall c, c ∈ createDeck
       <-> 1 <= number c <= 104 /\ pigs c = calculatePigValue (number c).
Proof.
  split; [reflexivity|]. split.
  - replace (number <$> createDeck) with (seqZ 1 104) by reflexivity.
    apply NoDup_seqZ.
  - intros c. unfold createDeck. rewrite list_elem_of_fmap. split.
    + intros (i & -> & Hi). apply elem_of_seqZ in Hi. simpl. split; [lia|done].
    + intros [Hn Hp]. exists (number c). split.
      * destruct c as [n p]. simpl in *. by rewrite Hp.
      * apply elem_of_seqZ. lia.
Qed.

Lemma createDeck_numbers_NoDup : NoDup (number <$> createDeck).
Proof.
  replace (number <$> createDeck) with (seqZ 1 104) by reflexivity.
  apply NoDup_seqZ.
Qed.

(** X2. On every integer, also outside 1..104, [calculatePigValue] is one of
    -11, 1, 2, 3, and it is -11 exactly on the nine doubles. JS [%] keeps the
    sign of the dividend, so a negative number never scores 2: it scores 3
    when it is a multiple of 10 and 1 otherwise. *)
Theorem calculatePigValue_range (n : Z) :
  calculatePigValue n ∈ [-11; 1; 2; 3]
  /\ (calculatePigValue n = -11 <-> n ∈ SPECIAL_DOUBLES)
  /\ (n < 0 ->
      calculatePigValue n = if bool_decide (n `mod` 10 = 0) then 3 else 1).
Proof.
  unfold calculatePigValue, includes.
  split; [|split].
  - repeat case_bool_decide; rewrite !elem_of_cons; auto 10.
  - repeat case_bool_decide; split; intros; try done; lia.
  - intros Hneg. rewrite bool_decide_eq_false_2.
    2:{ unfold SPECIAL_DOUBLES. intros Hin.
        repeat (apply elem_of_cons in Hin as [Hin|Hin]; [lia|]).
        by apply elem_of_nil in Hin. }
    pose proof (Z.rem_nonpos n 10) as Hb.
    rewrite bool_decide_eq_false_2 by lia.
    assert (Z.rem n 10 = 0 <-> n `mod` 10 = 0) as Hiff.
    { rewrite Z.rem_divide, Z.mod_divide by lia. done. }
    repeat case_bool_decide; tauto.
Qed.

Lemma calculatePigValue_range_witness :
  calculatePigValue (-5) = if bool_decide ((-5) `mod` 10 = 0) then 3 else 1.
Proof. apply (calculatePigValue_range (-5)). lia. Defined.

(** *** Shuffling *)

Lemma insert_head_perm (l : list Card) (j : nat) (y a : Card) :
  l !! j = Some y -> y :: <[j := a]> l ≡ₚ a :: l.
Proof.
  revert j. induction l as [|b l IH]; intros [|j] Hj; simplify_eq/=.
  - apply Permutation_swap.
  - rewrite Permutation_swap, (IH j Hj). apply Permutation_swap.
Qed.

Lemma swap_perm (l : list Card) (i j : nat) : swap l i j ≡ₚ l.
Proof.
  unfold swap. destruct (l !! i) as [x|] eqn:Hi; [|done].
  destruct (l !! j) as [y|] eqn:Hj; [|done].
  revert i j Hi Hj. induction l as [|a l IH]; intros [|i] [|j] Hi Hj;
    simplify_eq/=.
  - done.
  - by apply insert_head_perm.
  - by apply insert_head_perm.
  - by rewrite (IH i j).
Qed.

Lemma shuffleLoop_perm rnd i l : shuffleLoop rnd i l ≡ₚ l.
Proof.
  revert l. induction i as [|i IH]; intros l; simpl; [done|].
  by rewrite IH, swap_perm.
Qed.

(** X3. Whatever the draws, [shuffleDeck] returns a rearrangement of its
    input: every card as often as before, none added, none lost. *)
Theorem shuffleDeck_permutation (randomIndex : nat -> nat) (deck : list Card) :
  (forall i, (randomIndex i <= i)%nat) ->
  shuffleDeck randomIndex deck ≡ₚ deck.
Proof. intros _. apply shuffleLoop_perm. Qed.

Lemma shuffleDeck_permutation_witness :
  shuffleDeck (fun i => i / 2)%nat (c_ <$> [1; 2; 3; 4; 5])
  ≡ₚ c_ <$> [1; 2; 3; 4; 5].
Proof.
  apply (shuffleDeck_permutation (fun i => i / 2)%nat).
  intros i. apply Nat.Div0.div_le_upper_bound. lia.
Defined.

(** *** Dealing conserves the deck *)

Lemma omap_lookup_seq (deck : list Card) (m start : nat) :
  omap (fun x => x) ((fun k => deck !! k) <$> seq start m)
  = take m (drop start deck).
Proof.
  revert start. induction m as [|m IH]; intros start; [done|].
  cbn [seq]. rewrite fmap_cons. csimpl. rewrite IH.
  destruct (deck !! start) as [x|] eqn:E.
  - by rewrite (drop_S _ _ _ E).
  - apply lookup_ge_None in E. rewrite !drop_ge by lia.
    by rewrite !take_nil.
Qed.

Lemma omap_sortHand (h : list (option Card)) :
  omap (fun x => x) (sortHand h) ≡ₚ omap (fun x => x) h.
Proof.
  unfold sortHand. rewrite omap_app, omap_id_Some, sortBy_perm.
  generalize (length h - length (omap (fun x => x) h))%nat. intros k.
  replace (omap (fun x => x) (replicate k (@None Card))) with (@nil Card).
  - by rewrite app_nil_r.
  - induction k as [|k IH]; [done|]. by csimpl.
Qed.

Lemma dealt_cards_take (deck : list Card) (n : nat) :
  omap (fun x => x)
       (concat ((fun p => sortHand (slots deck (10 * p))) <$> seq 0 n))
  ≡ₚ take (10 * n) deck.
Proof.
  induction n as [|n IH]; [done|].
  rewrite seq_S, fmap_app, concat_app, omap_app, IH. simpl.
  rewrite app_nil_r, omap_sortHand. unfold slots.
  rewrite omap_lookup_seq, take_take_drop. f_equiv. f_equal. lia.
Qed.

(** X4. Whatever the size of the deck, [dealCards] neither loses nor
    duplicates a card: the defined cards of all hands together with
    [remainingDeck] are a rearrangement of the deck. *)
Theorem dealCards_conserves_deck (deck : list Card) (n : nat) :
  omap (fun x => x) (concat (hands (dealCards deck n)))
    ++ remainingDeck (dealCards deck n)
  ≡ₚ deck.
Proof.
  rewrite dealCards_slots. simpl.
  by rewrite dealt_cards_take, take_drop.
Qed.

Lemma dealCards_full_hands (deck : list Card) (n : nat) :
  (10 * n <= length deck)%nat ->
  hands (dealCards deck n)
  = (fun p => Some <$> sortBy number (take 10 (drop (10 * p) deck)))
      <$> seq 0 n.
Proof.
  intros Hlen. rewrite dealCards_slots. simpl.
  apply list_fmap_ext. intros i p Hp. apply lookup_seq in Hp as [-> Hp].
  simpl. rewrite slots_full by lia. apply sortHand_full.
Qed.

Lemma dealCards_runs_out (deck : list Card) (n : nat) :
  (length deck < 10 * n)%nat ->
  exists hand, hand ∈ hands (dealCards deck n) /\ None ∈ hand.
Proof.
  intros Hlen. rewrite dealCards_slots. simpl.
  destruct n as [|n]; [lia|].
  exists (sortHand (slots deck (10 * n))). split.
  - apply list_elem_of_fmap. exists n. split; [done|].
    apply elem_of_seq. lia.
  - apply sortHand_keeps_undefined. unfold slots.
    apply list_elem_of_fmap. exists (10 * n + 9)%nat. split.
    + symmetry. apply lookup_ge_None. lia.
    + apply elem_of_seq. lia.
Qed.

(** *** The first table *)

Lemma sortBy_fmap {A B} (key : B -> Z) (f : A -> B) (l : list A) :
  sortBy key (f <$> l) = f <$> sortBy (fun x => key (f x)) l.
Proof.
  induction l as [|x l IH]; [done|]. rewrite fmap_cons. simpl. rewrite IH.
  generalize (sortBy (fun x => key (f x)) l). intros k.
  induction k as [|y k IHk]; [done|]. rewrite fmap_cons. simpl.
  case_bool_decide; [done|]. by rewrite IHk.
Qed.

Lemma initializeTableRows_four (a b c d : Card) (rest : list Card) :
  initializeTableRows (a :: b :: c :: d :: rest)
  = Some (mkTableInit
            ((fun x => mkRow [x]) <$> sortBy number [a; b; c; d]) rest).
Proof.
  unfold initializeTableRows. cbn [seq mapM lookup list_lookup].
  change (mapM (fun i => (a :: b :: c :: d :: rest) !! i) [0; 1; 2; 3]%nat)
    with (Some [a; b; c; d]).
  cbv beta iota. f_equal. f_equal.
  apply (sortBy_fmap firstNumber (fun x => mkRow [x])).
Qed.

Lemma concat_singleton_rows (l : list Card) :
  concat (cards <$> ((fun x => mkRow [x]) <$> l)) = l.
Proof. induction l as [|x l IH]; [done|]. csimpl. by rewrite IH. Qed.

(** X5. [initializeTableRows] throws on a deck of fewer than 4 cards. On a
    longer deck it returns 4 rows of one card each, holding the deck's first
    4 cards in ascending order of number, and the deck without those 4. *)
Theorem initializeTableRows_sorted_founders (deck : list Card) :
  ((length deck < 4)%nat -> initializeTableRows deck = None)
  /\ ((4 <= length deck)%nat ->
      exists t,
        initializeTableRows deck = Some t
        /\ length (initRows t) = 4%nat
        /\ Forall (fun row => length (cards row) = 1%nat) (initRows t)
        /\ concat (cards <$> initRows t) ≡ₚ take 4 deck
        /\ StronglySorted (fun x y => number x <= number y)
                          (concat (cards <$> initRows t))
        /\ initRemainingDeck t = drop 4 deck).
Proof.
  split; intros Hlen.
  - destruct deck as [|a [|b [|c [|d rest]]]]; simpl in Hlen;
      try reflexivity. lia.
  - destruct deck as [|a [|b [|c [|d rest]]]]; simpl in Hlen; try lia.
    rewrite initializeTableRows_four. eexists. split; [reflexivity|].
    cbn [initRows initRemainingDeck]. rewrite concat_singleton_rows.
    split; [|split; [|split; [|split]]].
    + by rewrite length_fmap, sortBy_length.
    + apply Forall_fmap, Forall_forall. done.
    + apply sortBy_perm.
    + apply sortBy_sorted.
    + done.
Qed.

Lemma initializeTableRows_sorted_founders_witness :
  (exists t,
     initializeTableRows (c_ <$> [40; 7; 93; 12; 5]) = Some t
     /\ length (initRows t) = 4%nat
     /\ Forall (fun row => length (cards row) = 1%nat) (initRows t)
     /\ concat (cards <$> initRows t) ≡ₚ take 4 (c_ <$> [40; 7; 93; 12; 5])
     /\ StronglySorted (fun x y => number x <= number y)
                       (concat (cards <$> initRows t))
     /\ initRemainingDeck t = drop 4 (c_ <$> [40; 7; 93; 12; 5]))
  /\ initializeTableRows (c_ <$> [40; 7; 93]) = None.
Proof.
  split.
  - apply (initializeTableRows_sorted_founders (c_ <$> [40; 7; 93; 12; 5])).
    simpl. lia.
  - apply (initializeTableRows_sorted_founders (c_ <$> [40; 7; 93])).
    simpl. lia.
Defined.

(** *** A new game and a new round *)

Lemma numbers_take_NoDup (deck : list Card) (k : nat) :
  NoDup (number <$> deck) -> NoDup (number <$> take k deck).
Proof.
  intros Hnd. eapply sublist_NoDup; [exact Hnd|].
  apply fmap_sublist, sublist_take.
Qed.

(** X6. With at most 10 participants [initializeGame] returns a game in
    phase [selecting], round 1, with 4 one-card rows and one hand of 10
    defined cards per participant; all the cards on the table and in the
    hands are cards of the 104-card deck, and no number occurs twice among
    them. *)
Theorem initializeGame_deals_distinct_cards
    (randomIndex : nat -> nat) (n : nat) :
  (forall i, (randomIndex i <= i)%nat) ->
  (n <= 10)%nat ->
  exists g,
    initializeGame randomIndex n = Some g
    /\ phase (gameState g) = selecting
    /\ round (gameState g) = 1
    /\ length (tableRows (gameState g)) = 4%nat
    /\ Forall (fun row => length (cards row) = 1%nat)
              (tableRows (gameState g))
    /\ length (gameHands g) = n
    /\ Forall (fun hand => length hand = 10%nat /\ None ∉ hand) (gameHands g)
    /\ NoDup (number <$> (concat (cards <$> tableRows (gameState g))
                          ++ omap (fun x => x) (concat (gameHands g))))
    /\ forall c, c ∈ concat (cards <$> tableRows (gameState g))
                       ++ omap (fun x => x) (concat (gameHands g)) ->
                 c ∈ createDeck.
Proof.
  intros _ Hn. unfold initializeGame.
  set (deck := shuffleDeck randomIndex createDeck).
  assert (Hperm : deck ≡ₚ createDeck) by apply shuffleLoop_perm.
  assert (Hlen : length deck = 104%nat) by (by rewrite Hperm).
  destruct deck as [|a [|b [|c [|d rest]]]] eqn:Hdeck;
    simpl in Hlen; try lia.
  rewrite initializeTableRows_four.
  cbn [mbind option_bind initRows initRemainingDeck].
  eexists. split; [reflexivity|].
  cbn [gameState gameHands phase round tableRows].
  rewrite concat_singleton_rows.
  assert (Hhands := dealCards_full_hands rest n ltac:(lia)).
  assert (Hcards :
    sortBy number [a; b; c; d] ++ omap (fun x => x) (concat (hands (dealCards rest n)))
    ≡ₚ take (4 + 10 * n) (a :: b :: c :: d :: rest)).
  { rewrite sortBy_perm, dealCards_slots. cbn [hands].
    rewrite dealt_cards_take. done. }
  split; [done|]. split; [done|]. split.
  { by rewrite length_fmap, sortBy_length. }
  split. { apply Forall_fmap, Forall_forall. done. }
  split. { by rewrite Hhands, length_fmap, length_seq. }
  split.
  { rewrite Hhands. apply Forall_fmap, Forall_forall. intros p Hp. simpl.
    apply elem_of_seq in Hp. split.
    - rewrite length_fmap, sortBy_length, length_take, length_drop. lia.
    - intros Hin. apply list_elem_of_fmap in Hin as (x & Hx & _). done. }
  split.
  - rewrite Hcards. apply numbers_take_NoDup. rewrite Hperm.
    apply createDeck_numbers_NoDup.
  - intros x Hx. rewrite Hcards in Hx. apply subseteq_take in Hx.
    by rewrite Hperm in Hx.
Qed.

Lemma initializeGame_deals_distinct_cards_witness :
  exists g,
    initializeGame (fun i => i / 2)%nat 3 = Some g
    /\ phase (gameState g) = selecting
    /\ round (gameState g) = 1
    /\ length (tableRows (gameState g)) = 4%nat
    /\ Forall (fun row => length (cards row) = 1%nat)
              (tableRows (gameState g))
    /\ length (gameHands g) = 3%nat
    /\ Forall (fun hand => length hand = 10%nat /\ None ∉ hand) (gameHands g)
    /\ NoDup (number <$> (concat (cards <$> tableRows (gameState g))
                          ++ omap (fun x => x) (concat (gameHands g))))
    /\ forall c, c ∈ concat (cards <$> tableRows (gameState g))
                       ++ omap (fun x => x) (concat (gameHands g)) ->
                 c ∈ createDeck.
Proof.
  apply (initializeGame_deals_distinct_cards (fun i => i / 2)%nat 3).
  - intros i. apply Nat.Div0.div_le_upper_bound. lia.
  - lia.
Defined.

Lemma fresh_deck_numbers (onTable : list Z) :
  NoDup (number <$> filter
           (fun c => negb (includes onTable (number c)) = true) createDeck).
Proof.
  eapply sublist_NoDup; [apply createDeck_numbers_NoDup|].
  apply fmap_sublist, sublist_filter.
Qed.

Lemma table_numbers (rows : list TableRow) :
  rows ≫= (fun row => number <$> cards row)
  = number <$> concat (cards <$> rows).
Proof.
  induction rows as [|row rows IH]; [done|].
  csimpl. by rewrite fmap_app, IH.
Qed.

(** X7. Whatever the table and the number of participants, the defined
    cards [startNewRound] deals are cards of the 104-card deck, pairwise
    different in number, none with a number that is on the table; and
    [cardsOnTable] lists the numbers on the table row by row. *)
Theorem startNewRound_deals_distinct_cards
    (randomIndex : nat -> nat) (n : nat) (rows : list TableRow) :
  (forall i, (randomIndex i <= i)%nat) ->
  cardsOnTable (startNewRound randomIndex n rows)
  = number <$> concat (cards <$> rows)
  /\ NoDup (number <$> omap (fun x => x)
                         (concat (roundHands (startNewRound randomIndex n rows))))
  /\ forall c, c ∈ omap (fun x => x)
                       (concat (roundHands (startNewRound randomIndex n rows))) ->
               c ∈ createDeck
               /\ number c ∉ cardsOnTable (startNewRound randomIndex n rows).
Proof.
  intros _. unfold startNewRound. cbn zeta. cbn [cardsOnTable roundHands].
  set (onTable := rows ≫= (fun row => number <$> cards row)).
  set (fresh := filter _ createDeck).
  set (deck := shuffleDeck randomIndex fresh).
  assert (Hperm : deck ≡ₚ fresh) by apply shuffleLoop_perm.
  rewrite dealCards_slots. cbn [hands]. rewrite dealt_cards_take.
  split; [|split].
  - apply table_numbers.
  - apply numbers_take_NoDup. rewrite Hperm. apply fresh_deck_numbers.
  - intros c Hc. rewrite dealt_cards_take in Hc.
    apply subseteq_take in Hc. rewrite Hperm in Hc.
    apply list_elem_of_filter in Hc as [Hoff Hc]. split; [done|].
    unfold includes in Hoff.
    by apply negb_true_iff, bool_decide_eq_false in Hoff.
Qed.

Lemma startNewRound_deals_distinct_cards_witness :
  cardsOnTable (startNewRound (fun i => i / 2)%nat 2 exampleRows)
  = number <$> concat (cards <$> exampleRows)
  /\ NoDup (number <$> omap (fun x => x) (concat (roundHands
               (startNewRound (fun i => i / 2)%nat 2 exampleRows))))
  /\ forall c, c ∈ omap (fun x => x) (concat (roundHands
                      (startNewRound (fun i => i / 2)%nat 2 exampleRows))) ->
               c ∈ createDeck
               /\ number c ∉ cardsOnTable
                     (startNewRound (fun i => i / 2)%nat 2 exampleRows).
Proof.
  apply (startNewRound_deals_distinct_cards (fun i => i / 2)%nat 2 exampleRows).
  intros i. apply Nat.Div0.div_le_upper_bound. lia.
Defined.

(** X8. [startNewRound] checks nothing either: when fewer than [10 n] of the
    numbers 1..104 are off the table, it still returns, and a hand comes
    back with [undefined] in it. Ten participants and five numbers on the
    table are enough. *)
Theorem startNewRound_runs_out_of_cards
    (randomIndex : nat -> nat) (n : nat) (rows : list TableRow) :
  (forall i, (randomIndex i <= i)%nat) ->
  (length (filter (fun k => k ∉ rows ≫= (fun row => number <$> cards row))
                  (seqZ 1 104)) < 10 * n)%nat ->
  exists hand,
    hand ∈ roundHands (startNewRound randomIndex n rows) /\ None ∈ hand.
Proof.
  intros _ Hfew. unfold startNewRound. cbn [roundHands].
  apply dealCards_runs_out. unfold shuffleDeck.
  by rewrite shuffleLoop_length, fresh_deck_length.
Qed.

Lemma startNewRound_runs_out_of_cards_witness :
  exists hand,
    hand ∈ roundHands
      (startNewRound (fun i => i / 2)%nat 10
         [mkRow [c_ 3; c_ 9]; mkRow [c_ 20]; mkRow [c_ 30]; mkRow [c_ 40]])
    /\ None ∈ hand.
Proof.
  apply (startNewRound_runs_out_of_cards (fun i => i / 2)%nat 10).
  - intros i. apply Nat.Div0.div_le_upper_bound. lia.
  - vm_compute. lia.
Defined.

(** *** Row resolution: errors, conservation, invariants *)

Lemma at_index_None {A} (a : list A) (i : Z) :
  at_index a i = None <-> i < 0 \/ Z.of_nat (length a) <= i.
Proof.
  unfold at_index. case_bool_decide as Hi.
  - split; [lia|done].
  - rewrite lookup_ge_None. lia.
Qed.

(** X9. [placeCardInRow] and [takeRow] throw exactly when the row index is
    negative or not below the number of rows. *)
Theorem row_index_out_of_range (c : Card) (i : Z) (rows : list TableRow) :
  (placeCardInRow c i rows = None <-> i < 0 \/ Z.of_nat (length rows) <= i)
  /\ (takeRow c i rows = None <-> i < 0 \/ Z.of_nat (length rows) <= i).
Proof.
  rewrite <- !at_index_None. unfold placeCardInRow, takeRow.
  destruct (at_index rows i) as [row|]; [|done].
  split; [case_bool_decide|]; done.
Qed.

Lemma insert_row_cards (rows : list TableRow) (k : nat) (row new : TableRow) :
  rows !! k = Some row ->
  concat (cards <$> rows)
    = concat (cards <$> take k rows) ++ cards row
        ++ concat (cards <$> drop (S k) rows)
  /\ concat (cards <$> <[k := new]> rows)
    = concat (cards <$> take k rows) ++ cards new
        ++ concat (cards <$> drop (S k) rows).
Proof.
  intros Hk. split.
  - rewrite <- (take_drop_middle rows k row Hk) at 1.
    by rewrite fmap_app, concat_app, fmap_cons.
  - rewrite insert_take_drop by (by eapply lookup_lt_Some).
    by rewrite fmap_app, concat_app, fmap_cons.
Qed.

(** X10. Whenever [placeCardInRow] or [takeRow] returns, no card appears or
    disappears: the cards of the new table together with [cardsTaken] are
    the cards of the old table plus the card played; and [pigsTaken] is the
    sum of the pig values of [cardsTaken]. *)
Theorem row_resolution_conserves_cards
    (c : Card) (i : Z) (rows : list TableRow) (p : Placement) :
  placeCardInRow c i rows = Some p \/ takeRow c i rows = Some p ->
  concat (cards <$> newRows p) ++ cardsTaken p
    ≡ₚ concat (cards <$> rows) ++ [c]
  /\ pigsTaken p = penaltySum (cardsTaken p).
Proof.
  unfold placeCardInRow, takeRow.
  destruct (at_index rows i) as [row|] eqn:Hrow; [|by intros [|]].
  apply at_index_nat in Hrow as [_ Hk].
  intros [Hp|Hp]; [case_bool_decide|]; simplify_eq; simpl;
    rewrite ?calculateRowPigs_sum; (split; [|done]);
    match goal with
    | |- context [<[_ := ?new]> rows] =>
        destruct (insert_row_cards rows (Z.to_nat i) row new Hk)
          as [-> ->]
    end; simpl; solve_Permutation.
Qed.

Lemma row_resolution_conserves_cards_witness :
  concat (cards <$> [mkRow [c_ 13]; mkRow [c_ 20]; mkRow [c_ 30];
                     mkRow [c_ 40]])
    ++ [c_ 3; c_ 5; c_ 10; c_ 11; c_ 12]
  ≡ₚ concat (cards <$> fullTable) ++ [c_ 13]
  /\ -4 = penaltySum [c_ 3; c_ 5; c_ 10; c_ 11; c_ 12].
Proof.
  apply (row_resolution_conserves_cards (c_ 13) 0 fullTable
           (mkPlacement
              [mkRow [c_ 13]; mkRow [c_ 20]; mkRow [c_ 30]; mkRow [c_ 40]]
              (-4) [c_ 3; c_ 5; c_ 10; c_ 11; c_ 12])).
  left. reflexivity.
Defined.

(** X11. A table on which every row holds 1 to 5 cards stays such a table
    through [placeCardInRow] and through [takeRow]: no row is ever left
    empty or with a sixth card. *)
Theorem row_resolution_keeps_row_sizes
    (c : Card) (i : Z) (rows : list TableRow) (p : Placement) :
  Forall (fun row => (1 <= length (cards row) <= 5)%nat) rows ->
  placeCardInRow c i rows = Some p \/ takeRow c i rows = Some p ->
  Forall (fun row => (1 <= length (cards row) <= 5)%nat) (newRows p).
Proof.
  intros Hsz. unfold placeCardInRow, takeRow.
  destruct (at_index rows i) as [row|] eqn:Hrow; [|by intros [|]].
  intros [Hp|Hp]; [case_bool_decide|]; simplify_eq; simpl;
    apply Forall_insert; try done; simpl; try lia.
  rewrite length_app. simpl. lia.
Qed.

Lemma row_resolution_keeps_row_sizes_witness :
  Forall (fun row => (1 <= length (cards row) <= 5)%nat)
         [mkRow [c_ 13]; mkRow [c_ 20]; mkRow [c_ 30]; mkRow [c_ 40]].
Proof.
  apply (row_resolution_keeps_row_sizes (c_ 13) 0 fullTable
           (mkPlacement
              [mkRow [c_ 13]; mkRow [c_ 20]; mkRow [c_ 30]; mkRow [c_ 40]]
              (-4) [c_ 3; c_ 5; c_ 10; c_ 11; c_ 12])).
  - repeat constructor; simpl; lia.
  - left. reflexivity.
Defined.

(** The index [findRowForCard] returns, when it is not [-1], is the index of
    a row of the table whose last card is below the card. *)
Lemma findRowForCard_target (c : Card) (rows : list TableRow) (r : Z) :
  Forall (fun row => cards row <> []) rows ->
  findRowForCard c rows = Some r ->
  r = -1
  \/ exists row lastCard,
       at_index rows r = Some row
       /\ last (cards row) = Some lastCard
       /\ number lastCard < number c.
Proof.
  intros Hne Hr.
  destruct (findRowLoop_bestSoFar c rows [] (-1) Infinity Hne)
    as (r' & sd & Hr' & Hinv).
  { split; [done|]. intros j row d Hj. done. }
  change (findRowForCard c rows = Some r') in Hr'. simpl in Hinv.
  rewrite Hr in Hr'. simplify_eq.
  destruct sd as [d|]; simpl in Hinv.
  - right. destruct Hinv as (H0 & (row & Hrow & lc & Hlc & Hlt & _) & _).
    exists row, lc. unfold at_index.
    by rewrite bool_decide_eq_false_2 by lia.
  - left. by destruct Hinv.
Qed.

(** X12. On a table of non-empty rows, the row [findRowForCard] picks can
    always take the card: [placeCardInRow] at that index returns, the card
    played is then the last card of that row, and if every row of the table
    was strictly ascending in number, every row of the new table is. *)
Theorem findRowForCard_then_placeCardInRow
    (c : Card) (rows : list TableRow) (r : Z) :
  Forall (fun row => cards row <> []) rows ->
  findRowForCard c rows = Some r ->
  r <> -1 ->
  exists p row',
    placeCardInRow c r rows = Some p
    /\ newRows p !! Z.to_nat r = Some row'
    /\ last (cards row') = Some c
    /\ (Forall ascendingRow rows -> Forall ascendingRow (newRows p)).
Proof.
  intros Hne Hr Hr1.
  destruct (findRowForCard_target c rows r Hne Hr)
    as [?|(row & lc & Hrow & Hlc & Hlt)]; [done|].
  pose proof (at_index_nat _ _ _ Hrow) as [_ Hk].
  pose proof (lookup_lt_Some _ _ _ Hk) as Hlen.
  unfold placeCardInRow. rewrite Hrow. case_bool_decide.
  - eexists _, (mkRow [c]). split; [reflexivity|]. simpl.
    split; [by apply list_lookup_insert_eq|]. split; [done|].
    intros Hasc. apply Forall_insert; [done|].
    unfold ascendingRow. simpl. repeat constructor.
  - eexists _, (mkRow (cards row ++ [c])). split; [reflexivity|]. simpl.
    split; [by apply list_lookup_insert_eq|]. split; [apply last_snoc|].
    intros Hasc. apply Forall_insert; [done|].
    unfold ascendingRow. simpl.
    assert (Hrowasc : ascendingRow row).
    { eapply Forall_forall in Hasc; [exact Hasc|].
      by eapply list_elem_of_lookup_2. }
    unfold ascendingRow in Hrowasc.
    apply last_Some in Hlc as [l' Hl']. rewrite Hl' in *.
    apply StronglySorted_app_2; [|done|repeat constructor].
    intros x1 x2 Hx1 Hx2. apply list_elem_of_singleton in Hx2 as ->.
    apply elem_of_app in Hx1 as [Hx1|Hx1].
    + assert (number x1 < number lc); [|lia].
      apply (StronglySorted_app_1_elem_of
               (fun a b => number a < number b) l' [lc] x1 lc Hrowasc Hx1).
      by apply list_elem_of_singleton.
    + apply list_elem_of_singleton in Hx1 as ->. done.
Qed.

Lemma findRowForCard_then_placeCardInRow_witness :
  exists p row',
    placeCardInRow (c_ 10) 1 exampleRows = Some p
    /\ newRows p !! Z.to_nat 1 = Some row'
    /\ last (cards row') = Some (c_ 10)
    /\ (Forall ascendingRow exampleRows -> Forall ascendingRow (newRows p)).
Proof.
  apply (findRowForCard_then_placeCardInRow (c_ 10) exampleRows 1).
  - repeat constructor; discriminate.
  - reflexivity.
  - discriminate.
Defined.

(** *** The row taken by default *)

Lemma findSmallestLoop_firstMinPigs (rest : list TableRow) :
  forall pre smallestPigs smallestIndex,
    (exists row, at_index pre smallestIndex = Some row
                 /\ calculateRowPigs row = smallestPigs)
    -> firstMinPigs pre smallestIndex
    -> firstMinPigs (pre ++ rest)
         (findSmallestLoop rest (Z.of_nat (length pre))
                           smallestPigs smallestIndex).
Proof.
  induction rest as [|row rest IH];
    intros pre sp si (r0 & Hr0 & Hsp) Hmin; simpl.
  - by rewrite app_nil_r.
  - replace (Z.of_nat (length pre) + 1)
      with (Z.of_nat (length (pre ++ [row])))
      by (rewrite length_app; simpl; lia).
    rewrite (cons_middle row pre rest), app_assoc.
    destruct Hmin as (r1 & Hr1 & Hle & Hfirst). simplify_eq.
    pose proof (at_index_nat _ _ _ Hr0) as [Hsi Hk].
    case_bool_decide as Hlt; apply IH.
    + exists row. unfold at_index.
      rewrite bool_decide_eq_false_2, Nat2Z.id by lia.
      by rewrite lookup_app_r, Nat.sub_diag by lia.
    + exists row. unfold at_index.
      rewrite bool_decide_eq_false_2, Nat2Z.id by lia.
      split; [by rewrite lookup_app_r, Nat.sub_diag by lia|]. split.
      * intros row' Hin. apply elem_of_app in Hin as [Hin|Hin].
        -- specialize (Hle row' Hin). lia.
        -- apply list_elem_of_singleton in Hin as ->. lia.
      * intros j row' Hj Hrow'. rewrite lookup_app_l in Hrow' by done.
        apply list_elem_of_lookup_2 in Hrow'. specialize (Hle row' Hrow').
        lia.
    + exists r0. split; [|done]. unfold at_index.
      rewrite bool_decide_eq_false_2 by lia. by apply lookup_app_l_Some.
    + exists r0. unfold at_index. rewrite bool_decide_eq_false_2 by lia.
      split; [by apply lookup_app_l_Some|]. split.
      * intros row' Hin. apply elem_of_app in Hin as [Hin|Hin]; [eauto|].
        apply list_elem_of_singleton in Hin as ->. lia.
      * intros j row' Hj Hrow'. apply (Hfirst j row' Hj).
        rewrite lookup_app_l in Hrow'; [done|].
        apply lookup_lt_Some in Hk. lia.
Qed.

Lemma minPigsLoop_findSmallestLoop (rows : list TableRow) :
  forall i smallestPigs smallestIndex,
    minPigsLoop rows i (Finite smallestPigs) smallestIndex
    = findSmallestLoop rows i smallestPigs smallestIndex.
Proof.
  induction rows as [|row rows IH]; intros i sp si; [done|].
  simpl. unfold calculateRowPigs. case_bool_decide; apply IH.
Qed.

(** X13. [findSmallestRow] throws on an empty table. On any other table it
    returns the index of a row whose pig total is at most every row's, and
    every row before it has a strictly greater total: the first of the
    cheapest rows. *)
Theorem findSmallestRow_first_cheapest (rows : list TableRow) :
  (rows = [] -> findSmallestRow rows = None)
  /\ (rows <> [] ->
      exists k, findSmallestRow rows = Some k /\ firstMinPigs rows k).
Proof.
  split; [by intros ->|]. destruct rows as [|row0 rows]; [done|]. intros _.
  eexists. split; [reflexivity|].
  apply (findSmallestLoop_firstMinPigs rows [row0]).
  - by exists row0.
  - exists row0. split; [done|]. split.
    + intros row' Hin. apply list_elem_of_singleton in Hin as ->. lia.
    + intros j row' Hj. simpl in Hj. lia.
Qed.

Lemma findSmallestRow_first_cheapest_witness :
  exists k, findSmallestRow fullTable = Some k /\ firstMinPigs fullTable k.
Proof. apply (findSmallestRow_first_cheapest fullTable). discriminate. Defined.

(** X14. The loop both game screens inline to pick a row for a participant
    who does not choose returns, on a non-empty table, the index
    [findSmallestRow] returns; on an empty table it returns 0, and the
    [takeRow] that follows throws. *)
Theorem minPigsLoop_is_findSmallestRow (rows : list TableRow) :
  (rows <> [] ->
   findSmallestRow rows = Some (minPigsLoop rows 0 Infinity 0))
  /\ (rows = [] ->
      minPigsLoop rows 0 Infinity 0 = 0
      /\ forall c, takeRow c (minPigsLoop rows 0 Infinity 0) rows = None).
Proof.
  split.
  - destruct rows as [|row0 rows]; [done|]. intros _. simpl.
    by rewrite minPigsLoop_findSmallestLoop.
  - by intros ->.
Qed.

Lemma minPigsLoop_is_findSmallestRow_witness :
  findSmallestRow fullTable = Some (minPigsLoop fullTable 0 Infinity 0)
  /\ minPigsLoop [] 0 Infinity 0 = 0.
Proof.
  split.
  - apply (minPigsLoop_is_findSmallestRow fullTable). discriminate.
  - apply (minPigsLoop_is_findSmallestRow []). reflexivity.
Defined.

(** *** Sorting the reveal batch *)

Lemma insertBy_filter_key {A} (key : A -> Z) (k : Z) (x : A) (l : list A) :
  filter (fun y => key y = k) (insertBy key x l)
  = filter (fun y => key y = k) (x :: l).
Proof.
  induction l as [|y l IH]; [done|]. simpl. case_bool_decide as Hxy; [done|].
  rewrite filter_cons, IH, !filter_cons.
  destruct (decide (key x = k)), (decide (key y = k)); try done. lia.
Qed.

(** X15. [sortRevealedCards] returns the same entries, in ascending order
    of card number, and entries with the same card number keep the order
    they had in the input. *)
Theorem sortRevealedCards_stable {T} (getCard : T -> Card) (l : list T) :
  sortRevealedCards getCard l ≡ₚ l
  /\ StronglySorted (fun a b => number (getCard a) <= number (getCard b))
                    (sortRevealedCards getCard l)
  /\ forall k,
       filter (fun r => number (getCard r) = k) (sortRevealedCards getCard l)
       = filter (fun r => number (getCard r) = k) l.
Proof.
  split; [apply sortBy_perm|]. split.
  - apply (sortBy_sorted (fun r => number (getCard r))).
  - intros k. unfold sortRevealedCards.
    induction l as [|x l IH]; [done|]. simpl.
    rewrite (insertBy_filter_key (fun r => number (getCard r))).
    by rewrite !filter_cons, IH.
Qed.

(** *** The winner shown by the game screens *)

Lemma winnerData_fold (first : Lobby.LobbyPlayer)
    (rest : list Lobby.LobbyPlayer) :
  let w := foldl (fun prev curr =>
                    if bool_decide (Lobby.score prev < Lobby.score curr)
                    then prev else curr) first rest in
  exists k : nat,
    (first :: rest) !! k = Some w
    /\ (forall p, p ∈ first :: rest -> Lobby.score w <= Lobby.score p)
    /\ (forall j p, (k < j)%nat -> (first :: rest) !! j = Some p ->
                    Lobby.score w < Lobby.score p).
Proof.
  induction rest as [|x rest IH] using rev_ind; simpl.
  - exists 0%nat. split; [done|]. split.
    + intros p Hp. apply list_elem_of_singleton in Hp. subst. lia.
    + intros [|j] p Hj Hp; [lia|done].
  - rewrite foldl_app. simpl. destruct IH as (k & Hk & Hmin & Hafter).
    set (w := foldl _ first rest) in *.
    pose proof (lookup_lt_Some _ _ _ Hk) as Hklt.
    case_bool_decide as Hlt.
    + exists k. split; [|split].
      * rewrite app_comm_cons. by apply lookup_app_l_Some.
      * intros p Hp. rewrite app_comm_cons in Hp.
        apply elem_of_app in Hp as [Hp|Hp]; [by apply Hmin|].
        apply list_elem_of_singleton in Hp. subst. lia.
      * intros j p Hj Hp. rewrite app_comm_cons in Hp.
        apply lookup_snoc_inv in Hp as [[_ Hp]|[_ ->]]; [eauto|done].
    + exists (length (first :: rest)). split; [|split].
      * rewrite app_comm_cons.
        by rewrite lookup_app_r, Nat.sub_diag by lia.
      * intros p Hp. rewrite app_comm_cons in Hp.
        apply elem_of_app in Hp as [Hp|Hp].
        -- specialize (Hmin p Hp). lia.
        -- apply list_elem_of_singleton in Hp. subst. lia.
      * intros j p Hj Hp. rewrite app_comm_cons in Hp.
        apply lookup_lt_Some in Hp. rewrite length_app in Hp.
        simpl in *. lia.
Qed.

(** X16. The [reduce] with which [fetchGameData] picks the winner throws on
    an empty list; otherwise it returns a participant of the list with the
    lowest score, and every participant after it in the list has a strictly
    greater score: among those sharing the lowest score it is the last, not
    the first as with [getWinner]. *)
Theorem winnerData_last_minimum (playersData : list Lobby.LobbyPlayer) :
  (playersData = [] -> Lobby.winnerData playersData = None)
  /\ (playersData <> [] ->
      exists (w : Lobby.LobbyPlayer) (k : nat),
        Lobby.winnerData playersData = Some w
        /\ playersData !! k = Some w
        /\ (forall p, p ∈ playersData -> Lobby.score w <= Lobby.score p)
        /\ (forall j p, (k < j)%nat -> playersData !! j = Some p ->
                        Lobby.score w < Lobby.score p)).
Proof.
  split; [by intros ->|].
  destruct playersData as [|first rest]; [done|]. intros _.
  destruct (winnerData_fold first rest) as (k & Hk & Hmin & Hafter).
  eexists _, k. split; [reflexivity|]. auto.
Qed.

Lemma winnerData_last_minimum_witness :
  exists (w : Lobby.LobbyPlayer) (k : nat),
    Lobby.winnerData [host; guest] = Some w
    /\ [host; guest] !! k = Some w
    /\ (forall p, p ∈ [host; guest] -> Lobby.score w <= Lobby.score p)
    /\ (forall j p, (k < j)%nat -> [host; guest] !! j = Some p ->
                    Lobby.score w < Lobby.score p).
Proof. apply (winnerData_last_minimum [host; guest]). discriminate. Defined.

(** *** A whole reveal batch *)

Lemma tableOk_nonempty (rows : list TableRow) :
  tableOk rows -> Forall (fun row => cards row <> []) rows.
Proof.
  intros Hok. eapply Forall_impl; [exact Hok|].
  intros row Hsz Hnil. simpl in Hsz. rewrite Hnil in Hsz. simpl in Hsz. lia.
Qed.

Lemma findRowForCard_returns (c : Card) (rows : list TableRow) :
  Forall (fun row => cards row <> []) rows ->
  exists r,
    findRowForCard c rows = Some r
    /\ (r = -1 \/ exists row, at_index rows r = Some row).
Proof.
  intros Hne.
  destruct (findRowLoop_bestSoFar c rows [] (-1) Infinity Hne)
    as (r & sd & Hr & Hinv).
  { split; [done|]. intros j row d Hj. done. }
  exists r. split; [exact Hr|].
  destruct (findRowForCard_target c rows r Hne Hr)
    as [?|(row & lc & Hrow & _)]; [by left|right; by exists row].
Qed.

Lemma minPigsLoop_in_range (rows : list TableRow) :
  rows <> [] ->
  exists row, at_index rows (minPigsLoop rows 0 Infinity 0) = Some row.
Proof.
  destruct rows as [|row0 rows]; [done|]. intros _.
  simpl. rewrite minPigsLoop_findSmallestLoop.
  destruct (findSmallestLoop_firstMinPigs rows [row0]
              (calculateRowPigs row0) 0) as (row & Hrow & _).
  - by exists row0.
  - exists row0. split; [done|]. split.
    + intros row' Hin. apply list_elem_of_singleton in Hin as ->. lia.
    + intros j row' Hj. simpl in Hj. lia.
  - by exists row.
Qed.

Lemma placeNormal_step (st : Placing) (r : RevealedCard) (i : Z) row :
  tableOk (currentRows st) ->
  at_index (currentRows st) i = Some row ->
  exists st', placeNormal st r i = Some st' /\ resolvedOne st st' r.
Proof.
  intros Hok Hrow. unfold placeNormal, placeCardInRow. rewrite Hrow.
  pose proof (at_index_nat _ _ _ Hrow) as [_ Hk].
  assert (Hsz : (1 <= length (cards row) <= 5)%nat).
  { eapply Forall_forall in Hok; [exact Hok|].
    by eapply list_elem_of_lookup_2. }
  case_bool_decide; simpl; eexists; (split; [reflexivity|]);
    unfold resolvedOne; simpl; rewrite length_insert;
    (split; [done|]); (split; [|done]);
    apply Forall_insert; try done; simpl; try lia.
  rewrite length_app. simpl. lia.
Qed.

Lemma captureRow_step (st : Placing) (r : RevealedCard) (i : Z) row :
  tableOk (currentRows st) ->
  at_index (currentRows st) i = Some row ->
  exists st', captureRow st r i = Some st' /\ resolvedOne st st' r.
Proof.
  intros Hok Hrow. unfold captureRow, takeRow. rewrite Hrow. simpl.
  eexists. split; [reflexivity|]. unfold resolvedOne. simpl.
  rewrite length_insert. split; [done|]. split; [|done].
  apply Forall_insert; [done|]. simpl. lia.
Qed.

Lemma GameScreen1_placeOne_step players (st : Placing) (r : RevealedCard) :
  r ∈ Lobby.revealed players ->
  currentRows st <> [] ->
  tableOk (currentRows st) ->
  exists st', GameScreen1.placeOne players st r = Some st'
              /\ resolvedOne st st' r.
Proof.
  intros Hr Hne Hok. unfold GameScreen1.placeOne.
  destruct (revealed_player_found players r Hr) as [p ->].
  destruct (findRowForCard_returns (card r) (currentRows st))
    as (i & -> & Hi); [by apply tableOk_nonempty|]. simpl.
  case_bool_decide as Hm.
  - destruct (minPigsLoop_in_range (currentRows st) Hne) as [row Hrow].
    by eapply captureRow_step.
  - destruct Hi as [?|[row Hrow]]; [done|]. by eapply placeNormal_step.
Qed.

Lemma GameScreen1_placeAll_steps players (sorted : list RevealedCard) :
  forall st,
    (forall r, r ∈ sorted -> r ∈ Lobby.revealed players) ->
    currentRows st <> [] ->
    tableOk (currentRows st) ->
    exists st',
      GameScreen1.placeAll players sorted st = Some st'
      /\ length (currentRows st') = length (currentRows st)
      /\ tableOk (currentRows st')
      /\ cardsNeedingRowSelection st' = cardsNeedingRowSelection st
      /\ resolved st' = resolved st ++ (card <$> sorted).
Proof.
  induction sorted as [|r sorted IH]; intros st Hin Hne Hok.
  - exists st. by rewrite app_nil_r.
  - destruct (GameScreen1_placeOne_step players st r)
      as (st1 & H1 & Hlen1 & Hok1 & Hq1 & Hres1); [apply Hin; by left|done..|].
    destruct (IH st1) as (st' & H' & Hlen & Hok' & Hq & Hres).
    + intros r' Hr'. apply Hin. by right.
    + intros Hnil. rewrite Hnil in Hlen1. by destruct (currentRows st).
    + done.
    + exists st'. simpl. rewrite H1. simpl. split; [done|].
      split; [congruence|]. split; [done|]. split; [congruence|].
      rewrite Hres, Hres1, <- app_assoc. done.
Qed.

(** X17. On a table with at least one row, every row holding 1 to 5 cards,
    the placement loop of the earlier game screen never throws. It puts
    every revealed card on the table, in ascending order of number, one
    after the other; the table keeps its number of rows and every row still
    holds 1 to 5 cards. *)
Theorem GameScreen1_batch_keeps_table
    (players : list Lobby.LobbyPlayer) (rows : list TableRow) :
  rows <> [] ->
  tableOk rows ->
  exists st,
    GameScreen1.processRevealAndPlace players rows = Some st
    /\ resolved st = card <$> sortRevealedCards card (Lobby.revealed players)
    /\ length (currentRows st) = length rows
    /\ tableOk (currentRows st).
Proof.
  intros Hne Hok. unfold GameScreen1.processRevealAndPlace.
  destruct (GameScreen1_placeAll_steps players
              (sortRevealedCards card (Lobby.revealed players))
              (mkPlacing rows ∅ [] []))
    as (st & H & Hlen & Hok' & _ & Hres); [|done|done|by exists st].
  intros r Hr. by rewrite (proj1 (sortRevealedCards_ascending _ _)) in Hr.
Qed.

Lemma GameScreen1_batch_keeps_table_witness :
  exists st,
    GameScreen1.processRevealAndPlace [host; guest] staleRows = Some st
    /\ resolved st
       = card <$> sortRevealedCards card (Lobby.revealed [host; guest])
    /\ length (currentRows st) = length staleRows
    /\ tableOk (currentRows st).
Proof.
  apply (GameScreen1_batch_keeps_table [host; guest] staleRows).
  - discriminate.
  - repeat constructor; simpl; lia.
Defined.

Lemma GameScreen2_firstPass_steps (sorted : list RevealedCard) :
  forall st,
    currentRows st <> [] ->
    tableOk (currentRows st) ->
    exists st' placed deferred,
      GameScreen2.firstPass sorted st = Some st'
      /\ length (currentRows st') = length (currentRows st)
      /\ tableOk (currentRows st')
      /\ resolved st' = resolved st ++ placed
      /\ cardsNeedingRowSelection st' = cardsNeedingRowSelection st ++ deferred
      /\ deferred `sublist_of` sorted
      /\ placed `sublist_of` card <$> sorted
      /\ placed ++ (card <$> deferred) ≡ₚ card <$> sorted.
Proof.
  induction sorted as [|r sorted IH]; intros st Hne Hok.
  - exists st, [], []. by rewrite !app_nil_r.
  - cbn [GameScreen2.firstPass]. unfold GameScreen2.firstPassOne.
    destruct (findRowForCard_returns (card r) (currentRows st))
      as (i & -> & Hi); [by apply tableOk_nonempty|]. cbn [mbind option_bind].
    case_bool_decide as Hm.
    + destruct (IH (mkPlacing (currentRows st) (playerScoreUpdates st)
                      (cardsNeedingRowSelection st ++ [r]) (resolved st)))
        as (st' & placed & deferred & H' & Hlen & Hok' & Hres & Hq & Hd & Hp
            & Hperm); [done..|].
      exists st', placed, (r :: deferred). simpl in *.
      split; [done|]. split; [done|]. split; [done|]. split; [done|].
      split; [by rewrite Hq, <- app_assoc|].
      split; [by apply sublist_skip|]. split; [by apply sublist_cons|].
      by rewrite <- Permutation_middle, Hperm.
    + destruct Hi as [?|[row Hrow]]; [done|].
      destruct (placeNormal_step st r i row Hok Hrow)
        as (st1 & -> & Hlen1 & Hok1 & Hq1 & Hres1).
      destruct (IH st1)
        as (st' & placed & deferred & H' & Hlen & Hok' & Hres & Hq & Hd & Hp
            & Hperm); [|done|].
      { intros Hnil. rewrite Hnil in Hlen1. by destruct (currentRows st). }
      exists st', (card r :: placed), deferred. simpl in *.
      split; [done|]. split; [congruence|]. split; [done|].
      split; [by rewrite Hres, Hres1, <- app_assoc|].
      split; [congruence|].
      split; [by apply sublist_cons|]. split; [by apply sublist_skip|].
      by rewrite Hperm.
Qed.

Lemma GameScreen2_selectionPass_steps me wait (pending : list RevealedCard) :
  (forall c t, t <> [] -> 0 <= wait c t < Z.of_nat (length t)) ->
  forall st,
    currentRows st <> [] ->
    tableOk (currentRows st) ->
    exists st',
      GameScreen2.selectionPass me wait pending st = Some st'
      /\ length (currentRows st') = length (currentRows st)
      /\ tableOk (currentRows st')
      /\ cardsNeedingRowSelection st' = cardsNeedingRowSelection st
      /\ resolved st' = resolved st ++ (card <$> pending).
Proof.
  intros Hwait. induction pending as [|r pending IH]; intros st Hne Hok.
  - exists st. by rewrite app_nil_r.
  - cbn [GameScreen2.selectionPass]. unfold GameScreen2.selectionOne.
    assert (exists st1,
      (if bool_decide (playerId r = me)
       then captureRow st r (wait (card r) (currentRows st))
       else captureRow st r (minPigsLoop (currentRows st) 0 Infinity 0))
      = Some st1 /\ resolvedOne st st1 r)
      as (st1 & -> & Hlen1 & Hok1 & Hq1 & Hres1).
    { case_bool_decide.
      - specialize (Hwait (card r) (currentRows st) Hne).
        destruct (currentRows st !! Z.to_nat (wait (card r) (currentRows st)))
          as [row|] eqn:Hrow.
        + apply (captureRow_step st r _ row Hok). unfold at_index.
          by rewrite bool_decide_eq_false_2 by lia.
        + apply lookup_ge_None in Hrow. lia.
      - destruct (minPigsLoop_in_range (currentRows st) Hne) as [row Hrow].
        by eapply captureRow_step. }
    destruct (IH st1) as (st' & H' & Hlen & Hok' & Hq & Hres); [|done|].
    { intros Hnil. rewrite Hnil in Hlen1. by destruct (currentRows st). }
    exists st'. cbn [mbind option_bind]. split; [done|].
    split; [congruence|]. split; [done|]. split; [congruence|].
    by rewrite Hres, Hres1, <- app_assoc.
Qed.

(** X18. On a table with at least one row, every row holding 1 to 5 cards,
    and with a participant who picks one of the rows shown,
    [processCardPlacements] of the later game screen never throws and keeps
    the number of rows and the 1-to-5 bound. Every card of the batch is
    resolved exactly once, but not in batch order: first the cards that
    found a row, in batch order, then the cards that found none
    ([cardsNeedingRowSelection]), in batch order. *)
Theorem GameScreen2_batch_places_then_captures
    (me : string) (waitForRowSelection : Card -> list TableRow -> Z)
    (sorted : list RevealedCard) (rows : list TableRow) :
  rows <> [] ->
  tableOk rows ->
  (forall c t, t <> [] ->
               0 <= waitForRowSelection c t < Z.of_nat (length t)) ->
  exists st placed,
    GameScreen2.processCardPlacements me waitForRowSelection sorted rows
      = Some st
    /\ length (currentRows st) = length rows
    /\ tableOk (currentRows st)
    /\ resolved st = placed ++ (card <$> cardsNeedingRowSelection st)
    /\ cardsNeedingRowSelection st `sublist_of` sorted
    /\ placed `sublist_of` card <$> sorted
    /\ resolved st ≡ₚ card <$> sorted.
Proof.
  intros Hne Hok Hwait. unfold GameScreen2.processCardPlacements.
  destruct (GameScreen2_firstPass_steps sorted (mkPlacing rows ∅ [] []))
    as (st1 & placed & deferred & -> & Hlen1 & Hok1 & Hres1 & Hq1 & Hd & Hp
        & Hperm); [done..|].
  cbn [mbind option_bind]. simpl in *.
  destruct (GameScreen2_selectionPass_steps me waitForRowSelection
              (cardsNeedingRowSelection st1) Hwait st1)
    as (st & -> & Hlen & Hok' & Hq & Hres); [|done|].
  { intros Hnil. rewrite Hnil in Hlen1. by destruct rows. }
  exists st, placed. split; [done|]. split; [congruence|]. split; [done|].
  rewrite Hres, Hres1, Hq, Hq1. by repeat split.
Qed.

Lemma GameScreen2_batch_places_then_captures_witness :
  exists st placed,
    GameScreen2.processCardPlacements "P2" (fun _ _ => 0)
      [mkRevealed "P1" "Ann" (c_ 5); mkRevealed "P2" "Bob" (c_ 50)] staleRows
      = Some st
    /\ length (currentRows st) = length staleRows
    /\ tableOk (currentRows st)
    /\ resolved st = placed ++ (card <$> cardsNeedingRowSelection st)
    /\ cardsNeedingRowSelection st
         `sublist_of` [mkRevealed "P1" "Ann" (c_ 5);
                       mkRevealed "P2" "Bob" (c_ 50)]
    /\ placed `sublist_of`
         card <$> [mkRevealed "P1" "Ann" (c_ 5);
                   mkRevealed "P2" "Bob" (c_ 50)]
    /\ resolved st
         ≡ₚ card <$> [mkRevealed "P1" "Ann" (c_ 5);
                      mkRevealed "P2" "Bob" (c_ 50)].
Proof.
  apply (GameScreen2_batch_places_then_captures "P2" (fun _ _ => 0)
           [mkRevealed "P1" "Ann" (c_ 5); mkRevealed "P2" "Bob" (c_ 50)]
           staleRows).
  - discriminate.
  - repeat constructor; simpl; lia.
  - intros c t Ht. destruct t; [done|]. simpl. lia.
Defined.

Lemma GameScreen2_firstPass_queue_grows (sorted : list RevealedCard) :
  forall st st',
    GameScreen2.firstPass sorted st = Some st' ->
    (length (cardsNeedingRowSelection st)
     <= length (cardsNeedingRowSelection st'))%nat.
Proof.
  induction sorted as [|r sorted IH]; intros st st' H; simpl in H.
  - by simplify_eq.
  - apply bind_Some in H as (st1 & H1 & H). apply IH in H.
    unfold GameScreen2.firstPassOne in H1.
    apply bind_Some in H1 as (i & _ & H1). case_bool_decide.
    + simplify_eq. simpl in H. rewrite length_app in H. lia.
    + unfold placeNormal in H1. apply bind_Some in H1 as (p & _ & H1).
      simplify_eq. done.
Qed.

Lemma GameScreen2_firstPass_no_queue players (sorted : list RevealedCard) :
  forall st st',
    (forall r, r ∈ sorted -> r ∈ Lobby.revealed players) ->
    GameScreen2.firstPass sorted st = Some st' ->
    cardsNeedingRowSelection st' = [] ->
    GameScreen1.placeAll players sorted st = Some st'.
Proof.
  induction sorted as [|r sorted IH]; intros st st' Hin H Hq; simpl in *.
  - done.
  - apply bind_Some in H as (st1 & H1 & H).
    pose proof (GameScreen2_firstPass_queue_grows _ _ _ H) as Hgrow.
    rewrite Hq in Hgrow. simpl in Hgrow.
    unfold GameScreen2.firstPassOne in H1.
    apply bind_Some in H1 as (i & Hi & H1).
    unfold GameScreen1.placeOne.
    destruct (revealed_player_found players r) as [p ->];
      [apply Hin; by left|].
    rewrite Hi. simpl. case_bool_decide.
    + simplify_eq. simpl in Hgrow. rewrite length_app in Hgrow.
      simpl in Hgrow. lia.
    + rewrite H1. simpl. apply IH; [|done..].
      intros r' Hr'. apply Hin. by right.
Qed.

Lemma GameScreen2_selectionPass_queue me wait (pending : list RevealedCard) :
  forall st st',
    GameScreen2.selectionPass me wait pending st = Some st' ->
    cardsNeedingRowSelection st' = cardsNeedingRowSelection st.
Proof.
  induction pending as [|r pending IH]; intros st st' H; simpl in H.
  - by simplify_eq.
  - apply bind_Some in H as (st1 & H1 & H). rewrite (IH _ _ H).
    unfold GameScreen2.selectionOne in H1.
    case_bool_decide; unfold captureRow in H1;
      apply bind_Some in H1 as (p & _ & H1); by simplify_eq.
Qed.

(** X19. When a batch ends with no card in [cardsNeedingRowSelection], that
    is when every card found a row at its turn, the two game screens
    compute the same table, the same score updates and the same order. *)
Theorem screens_agree_without_row_selection
    (me : string) (waitForRowSelection : Card -> list TableRow -> Z)
    (players : list Lobby.LobbyPlayer) (rows : list TableRow)
    (st : Placing) :
  GameScreen2.processRevealAndPlace me waitForRowSelection players rows
    = Some st ->
  cardsNeedingRowSelection st = [] ->
  GameScreen1.processRevealAndPlace players rows = Some st.
Proof.
  unfold GameScreen2.processRevealAndPlace, GameScreen2.processCardPlacements,
    GameScreen1.processRevealAndPlace.
  intros H Hq. apply bind_Some in H as (st1 & H1 & H).
  pose proof (GameScreen2_selectionPass_queue _ _ _ _ _ H) as Hq1.
  rewrite Hq in Hq1. rewrite <- Hq1 in H. simpl in H. simplify_eq.
  apply GameScreen2_firstPass_no_queue; [|done..].
  intros r Hr. by rewrite (proj1 (sortRevealedCards_ascending _ _)) in Hr.
Qed.

Lemma screens_agree_without_row_selection_witness :
  GameScreen1.processRevealAndPlace [host; guest] lowRows
  = Some (mkPlacing
            [mkRow [c_ 1; c_ 5]; mkRow [c_ 20]; mkRow [c_ 30];
             mkRow [c_ 41; c_ 50]]
            ∅ [] [c_ 5; c_ 50]).
Proof.
  apply (screens_agree_without_row_selection "P2" (fun _ _ => 0)).
  - vm_compute. reflexivity.
  - reflexivity.
Defined.

(** *** Playing the selected card *)

Lemma filter_other_numbers (n : Z) (l : list Card) :
  (forall c, c ∈ l -> number c <> n) ->
  filter (fun c => Some (number c) ≠ Some n) l = l.
Proof.
  induction l as [|x l IH]; intros Hl; [done|].
  rewrite filter_cons, decide_True, IH; [done| |].
  - intros c Hc. apply Hl. by right.
  - intros [=]. by apply (Hl x); [left|].
Qed.

(** X20. The new hand the game screens write back: with no selected card it
    is the hand; with a selected card that is in a hand of pairwise different
    numbers it is the hand without exactly that card, one card shorter. *)
Theorem handWithoutSelected_removes_one (p : Lobby.LobbyPlayer) :
  (Lobby.selected_card p = None ->
   Lobby.handWithoutSelected p = Lobby.hand p)
  /\ (forall c,
        Lobby.selected_card p = Some c ->
        c ∈ Lobby.hand p ->
        NoDup (number <$> Lobby.hand p) ->
        (c ∉ Lobby.handWithoutSelected p)
        /\ Lobby.hand p ≡ₚ c :: Lobby.handWithoutSelected p
        /\ S (length (Lobby.handWithoutSelected p)) = length (Lobby.hand p)).
Proof.
  unfold Lobby.handWithoutSelected. split.
  - intros ->. simpl. induction (Lobby.hand p) as [|x l IH]; [done|].
    by rewrite filter_cons, decide_True, IH.
  - intros c -> Hin Hnd. simpl.
    apply list_elem_of_split in Hin as (l1 & l2 & Hl). rewrite Hl in *.
    rewrite fmap_app, fmap_cons in Hnd.
    apply NoDup_app in Hnd as (_ & Hl1 & Hnd).
    apply NoDup_cons in Hnd as [Hl2 _].
    rewrite filter_app, filter_cons, decide_False by (intros H; by apply H).
    rewrite !filter_other_numbers.
    + split; [|split].
      * intros Hc. apply elem_of_app in Hc as [Hc|Hc].
        -- apply (Hl1 (number c)); [by apply list_elem_of_fmap_2|by left].
        -- by apply Hl2, list_elem_of_fmap_2.
      * by rewrite Permutation_middle.
      * rewrite !length_app. simpl. lia.
    + intros x Hx Heq. apply Hl2. rewrite <- Heq.
      by apply list_elem_of_fmap_2.
    + intros x Hx Heq. apply (Hl1 (number x)).
      * by apply list_elem_of_fmap_2.
      * rewrite Heq. by left.
Qed.

Lemma handWithoutSelected_removes_one_witness :
  (c_ 5 ∉ Lobby.handWithoutSelected guest)
  /\ Lobby.hand guest ≡ₚ c_ 5 :: Lobby.handWithoutSelected guest
  /\ S (length (Lobby.handWithoutSelected guest)) = length (Lobby.hand guest).
Proof.
  apply (proj2 (handWithoutSelected_removes_one guest) (c_ 5)).
  - reflexivity.
  - left.
  - apply (bool_decide_unpack _). vm_compute. exact I.
Defined.

(** *** Pigs are conserved over a batch *)

Lemma totalUpdates_addPigs (m : gmap string Z) (pid : string) (t : Z) :
  totalUpdates (addPigs m pid t) = totalUpdates m + t.
Proof.
  unfold totalUpdates, addPigs.
  assert (Hcomm : forall (m' : gmap string Z) (j1 j2 : string) (z1 z2 y : Z),
             j1 <> j2 -> m' !! j1 = Some z1 -> m' !! j2 = Some z2 ->
             z1 + (z2 + y) = z2 + (z1 + y)) by (intros; lia).
  destruct (m !! pid) as [v|] eqn:E; simpl.
  - rewrite <- insert_delete_eq.
    rewrite map_fold_insert_L; [|by eauto|by rewrite lookup_delete_eq].
    rewrite (map_fold_delete_L _ _ pid v m); [lia|by eauto|done].
  - rewrite map_fold_insert_L; [lia|by eauto|done].
Qed.

Lemma tablePigs_insert (rows : list TableRow) (k : nat) (row new : TableRow) :
  rows !! k = Some row ->
  tablePigs (<[k := new]> rows)
  = tablePigs rows - calculateRowPigs row + calculateRowPigs new.
Proof.
  revert k. induction rows as [|x rows IH]; intros [|k] Hk; simplify_eq/=.
  - unfold tablePigs. rewrite !fmap_cons. simpl. lia.
  - specialize (IH k Hk). unfold tablePigs in *. rewrite !fmap_cons.
    simpl. lia.
Qed.

Lemma penaltySum_app (l1 l2 : list Card) :
  penaltySum (l1 ++ l2) = penaltySum l1 + penaltySum l2.
Proof.
  induction l1 as [|x l1 IH]; [done|].
  change (penaltySum ((x :: l1) ++ l2)) with (pigs x + penaltySum (l1 ++ l2)).
  change (penaltySum (x :: l1)) with (pigs x + penaltySum l1). lia.
Qed.

Lemma placeNormal_pigs (st st' : Placing) (r : RevealedCard) (i : Z) :
  placeNormal st r i = Some st' ->
  pigBalance st' = pigBalance st + pigs (card r)
  /\ cardsNeedingRowSelection st' = cardsNeedingRowSelection st.
Proof.
  unfold placeNormal, placeCardInRow. intros H.
  apply bind_Some in H as (p & Hp & H).
  destruct (at_index (currentRows st) i) as [row|] eqn:Hrow; [|done].
  pose proof (at_index_nat _ _ _ Hrow) as [_ Hk].
  unfold pigBalance.
  destruct (bool_decide (5 <= length (cards row))%nat); simplify_eq;
    cbn [currentRows playerScoreUpdates cardsNeedingRowSelection newRows
         pigsTaken];
    (split; [|done]);
    rewrite (tablePigs_insert _ _ row) by done;
    rewrite !calculateRowPigs_sum; cbn [cards].
  - change (penaltySum [card r]) with (pigs (card r) + 0).
    case_bool_decide as Hz.
    + rewrite totalUpdates_addPigs. lia.
    + lia.
  - rewrite penaltySum_app.
    change (penaltySum [card r]) with (pigs (card r) + 0).
    rewrite bool_decide_eq_false_2 by (intros Hz; by apply Hz). lia.
Qed.

Lemma captureRow_pigs (st st' : Placing) (r : RevealedCard) (i : Z) :
  captureRow st r i = Some st' ->
  pigBalance st' = pigBalance st + pigs (card r)
  /\ cardsNeedingRowSelection st' = cardsNeedingRowSelection st.
Proof.
  unfold captureRow, takeRow. intros H.
  apply bind_Some in H as (p & Hp & H).
  destruct (at_index (currentRows st) i) as [row|] eqn:Hrow; [|done].
  pose proof (at_index_nat _ _ _ Hrow) as [_ Hk].
  unfold pigBalance. simplify_eq.
  cbn [currentRows playerScoreUpdates cardsNeedingRowSelection newRows
       pigsTaken].
  split; [|done].
  rewrite (tablePigs_insert _ _ row) by done.
  rewrite totalUpdates_addPigs, !calculateRowPigs_sum. cbn [cards].
  change (penaltySum [card r]) with (pigs (card r) + 0). lia.
Qed.

Lemma GameScreen1_placeAll_pigs players (sorted : list RevealedCard) :
  forall st st',
    (forall r, r ∈ sorted -> r ∈ Lobby.revealed players) ->
    GameScreen1.placeAll players sorted st = Some st' ->
    pigBalance st' = pigBalance st + penaltySum (card <$> sorted).
Proof.
  induction sorted as [|r sorted IH]; intros st st' Hin H; simpl in H.
  - simplify_eq. change (penaltySum (card <$> [])) with 0. lia.
  - apply bind_Some in H as (st1 & H1 & H).
    rewrite (IH st1 st'); [|intros r' Hr'; apply Hin; by right|done].
    rewrite fmap_cons.
    change (penaltySum (card r :: (card <$> sorted)))
      with (pigs (card r) + penaltySum (card <$> sorted)).
    unfold GameScreen1.placeOne in H1.
    destruct (revealed_player_found players r) as [p Hp];
      [apply Hin; by left|].
    rewrite Hp in H1. apply bind_Some in H1 as (i & _ & H1).
    case_bool_decide;
      [apply captureRow_pigs in H1 as [-> _]
      |apply placeNormal_pigs in H1 as [-> _]]; lia.
Qed.

Lemma GameScreen2_firstPass_pigs (sorted : list RevealedCard) :
  forall st st',
    GameScreen2.firstPass sorted st = Some st' ->
    pigBalance st' + penaltySum (card <$> cardsNeedingRowSelection st')
    = pigBalance st + penaltySum (card <$> cardsNeedingRowSelection st)
      + penaltySum (card <$> sorted).
Proof.
  induction sorted as [|r sorted IH]; intros st st' H; simpl in H.
  - simplify_eq. change (penaltySum (card <$> [])) with 0. lia.
  - apply bind_Some in H as (st1 & H1 & H). rewrite (IH st1 st' H).
    rewrite fmap_cons.
    change (penaltySum (card r :: (card <$> sorted)))
      with (pigs (card r) + penaltySum (card <$> sorted)).
    unfold GameScreen2.firstPassOne in H1.
    apply bind_Some in H1 as (i & _ & H1). case_bool_decide.
    + simplify_eq. unfold pigBalance. simpl.
      rewrite fmap_app, penaltySum_app.
      change (penaltySum (card <$> [r])) with (pigs (card r) + 0). lia.
    + apply placeNormal_pigs in H1 as [-> ->]. lia.
Qed.

Lemma GameScreen2_selectionPass_pigs me wait (pending : list RevealedCard) :
  forall st st',
    GameScreen2.selectionPass me wait pending st = Some st' ->
    pigBalance st' = pigBalance st + penaltySum (card <$> pending).
Proof.
  induction pending as [|r pending IH]; intros st st' H; simpl in H.
  - simplify_eq. change (penaltySum (card <$> [])) with 0. lia.
  - apply bind_Some in H as (st1 & H1 & H). rewrite (IH st1 st' H).
    rewrite fmap_cons.
    change (penaltySum (card r :: (card <$> pending)))
      with (pigs (card r) + penaltySum (card <$> pending)).
    unfold GameScreen2.selectionOne in H1.
    case_bool_decide; apply captureRow_pigs in H1 as [-> _]; lia.
Qed.

(** X21. In both game screens a batch conserves pigs: the pigs on the
    table after the batch plus all the score updates equal the pigs on the
    table before plus the pigs of the cards played. No pig leaves the table
    without being charged to a participant, and none is charged twice. *)
Theorem batch_conserves_pigs
    (me : string) (waitForRowSelection : Card -> list TableRow -> Z)
    (players : list Lobby.LobbyPlayer) (rows : list TableRow) :
  (forall st,
     GameScreen1.processRevealAndPlace players rows = Some st ->
     tablePigs (currentRows st) + totalUpdates (playerScoreUpdates st)
     = tablePigs rows
       + penaltySum (card <$> sortRevealedCards card (Lobby.revealed players)))
  /\ (forall st,
        GameScreen2.processRevealAndPlace me waitForRowSelection players rows
          = Some st ->
        tablePigs (currentRows st) + totalUpdates (playerScoreUpdates st)
        = tablePigs rows
          + penaltySum
              (card <$> sortRevealedCards card (Lobby.revealed players))).
Proof.
  split; intros st H.
  - unfold GameScreen1.processRevealAndPlace in H.
    apply GameScreen1_placeAll_pigs in H.
    + unfold pigBalance in H. simpl in H.
      change (totalUpdates ∅) with 0 in H. lia.
    + intros r Hr.
      by rewrite (proj1 (sortRevealedCards_ascending _ _)) in Hr.
  - unfold GameScreen2.processRevealAndPlace,
      GameScreen2.processCardPlacements in H.
    apply bind_Some in H as (st1 & H1 & H).
    apply GameScreen2_firstPass_pigs in H1.
    apply GameScreen2_selectionPass_pigs in H.
    unfold pigBalance in *.
    cbn [currentRows playerScoreUpdates cardsNeedingRowSelection] in H1.
    change (totalUpdates ∅) with 0 in H1.
    change (penaltySum (card <$> [])) with 0 in H1. lia.
Qed.

Lemma batch_conserves_pigs_witness :
  tablePigs [mkRow [c_ 10]; mkRow [c_ 20]; mkRow [c_ 30; c_ 50]; mkRow [c_ 5]]
    + totalUpdates {[ "P1" := 1 ]}
  = tablePigs staleRows
    + penaltySum (card <$> sortRevealedCards card
                             (Lobby.revealed [host; guest]))
  /\ tablePigs [mkRow [c_ 5]; mkRow [c_ 20]; mkRow [c_ 30];
                mkRow [c_ 41; c_ 50]]
       + totalUpdates {[ "P1" := 3 ]}
     = tablePigs staleRows
       + penaltySum (card <$> sortRevealedCards card
                                (Lobby.revealed [host; guest])).
Proof.
  split.
  - assert (GameScreen1.processRevealAndPlace [host; guest] staleRows
            = Some (mkPlacing
                      [mkRow [c_ 10]; mkRow [c_ 20]; mkRow [c_ 30; c_ 50];
                       mkRow [c_ 5]]
                      {[ "P1" := 1 ]} [] [c_ 5; c_ 50])) as H
      by (vm_compute; reflexivity).
    exact (proj1 (batch_conserves_pigs "P2" (fun _ _ => 0) [host; guest]
                    staleRows) _ H).
  - assert (GameScreen2.processRevealAndPlace "P2" (fun _ _ => 0)
              [host; guest] staleRows
            = Some (mkPlacing
                      [mkRow [c_ 5]; mkRow [c_ 20]; mkRow [c_ 30];
                       mkRow [c_ 41; c_ 50]]
                      {[ "P1" := 3 ]} [mkRevealed "P1" "Ann" (c_ 5)]
                      [c_ 50; c_ 5])) as H
      by (vm_compute; reflexivity).
    exact (proj2 (batch_conserves_pigs "P2" (fun _ _ => 0) [host; guest]
                    staleRows) _ H).
Defined.
